(** * A shallow embedding of the [bloomfilter] Go package

    The package implements a Bloom filter over a slice of atomic 64-bit
    words.  Filters are heap objects handled through pointers, so the
    embedding threads an explicit store of filters (with pointer aliasing)
    and a log of lock events through a small state-and-panic monad.

    - [uint64] values are integers of [Z]; the only operation of the package
      that can overflow is the atomic increment of the insertion counter,
      whose wrap-around is written out ([wrap64]).
    - A Go run-time panic (index out of range, division by zero, nil
      dereference) is the outcome [Panic].
    - Go's [error] results are values of type [error]; [nil] is [None]. *)

From Stdlib Require Import ZArith List Lia Reals Lra.
From stdpp Require Import base list strings pretty.

Open Scope Z_scope.

(** ** Machine integers *)

Definition wrap64 (x : Z) : Z := x mod 2 ^ 64.

Definition uint64ToBool (x : Z) : bool := negb (x =? 0).

(** ** Outcomes of a Go computation *)

Inductive outcome (A : Type) : Type :=
| Done (a : A)
| Panic.
Arguments Done {A} a.
Arguments Panic {A}.

(** ** Data model *)

Definition ptr := nat.

(** The [Filter] struct.  The [lock] field carries no data: its use is
    recorded in the log of the [world]. *)
Record Filter : Type := mkFilter {
  bits : list Z;   (* []atomic.Uint64, mutable *)
  keys : list Z;   (* []uint64, immutable after init *)
  m : Z;           (* number of bits *)
  n : Z            (* atomic.Uint64, number of insertions *)
}.

Definition set_bits (f : Filter) (b : list Z) : Filter :=
  mkFilter b (keys f) (m f) (n f).

Definition set_n (f : Filter) (c : Z) : Filter :=
  mkFilter (bits f) (keys f) (m f) c.

(** Calls on the [sync.RWMutex] of a filter. *)
Inductive lockEvent : Type :=
| EvRLock (p : ptr)
| EvRUnlock (p : ptr)
| EvLock (p : ptr)
| EvUnlock (p : ptr).

Record world : Type := mkWorld {
  heap : list Filter;
  log : list lockEvent
}.

(** ** The monad of sequential Go code *)

Definition Go (A : Type) : Type := world → outcome (A * world).

#[global] Instance Go_ret : MRet Go := λ A a w, Done (a, w).

#[global] Instance Go_bind : MBind Go := λ A B k c w,
  match c w with
  | Done (a, w') => k a w'
  | Panic => Panic
  end.

Definition panic {A : Type} : Go A := λ _, Panic.

(** [defer d] followed by [body]: the deferred call runs when the
    surrounding function returns.  (When the body panics the program
    is lost, and so is the deferred call's effect.) *)
Definition defer {A : Type} (d : Go unit) (body : Go A) : Go A :=
  a ← body; d;; mret a.

(** [for _, x := range l { body }] *)
Fixpoint range {A : Type} (l : list A) (body : A → Go unit) : Go unit :=
  match l with
  | [] => mret tt
  | x :: t => body x;; range t body
  end.

(** The same loop around a local variable that the body updates. *)
Fixpoint rangeVar {A S : Type} (l : list A) (s : S) (body : S → A → Go S)
  : Go S :=
  match l with
  | [] => mret s
  | x :: t => s' ← body s x; rangeVar t s' body
  end.

(** *** Store primitives *)

Definition deref (p : ptr) : Go Filter := λ w,
  match heap w !! p with
  | Some f => Done (f, w)
  | None => Panic
  end.

Definition assign (p : ptr) (f : Filter) : Go unit := λ w,
  Done (tt, mkWorld (<[p := f]> (heap w)) (log w)).

Definition alloc (f : Filter) : Go ptr := λ w,
  Done (length (heap w), mkWorld (heap w ++ [f]) (log w)).

Definition emit (e : lockEvent) : Go unit := λ w,
  Done (tt, mkWorld (heap w) (log w ++ [e])).

(** Slice indexing [l[i]] with its bounds check. *)
Definition index {A : Type} (l : list A) (i : Z) : Go A :=
  if i <? 0 then panic
  else match l !! Z.to_nat i with
       | Some x => mret x
       | None => panic
       end.

(** [x % y] on [uint64]. *)
Definition rem (x y : Z) : Go Z :=
  if y =? 0 then panic else mret (x mod y).

(** *** The mutex *)

Definition RLock (p : ptr) : Go unit := deref p;; emit (EvRLock p).
Definition RUnlock (p : ptr) : Go unit := deref p;; emit (EvRUnlock p).
Definition Lock (p : ptr) : Go unit := deref p;; emit (EvLock p).
Definition Unlock (p : ptr) : Go unit := deref p;; emit (EvUnlock p).

(** *** Atomic words: [f.bits[i].Load()], [.Or(v)], [.Store(v)] *)

Definition bits_Load (p : ptr) (i : Z) : Go Z :=
  f ← deref p; index (bits f) i.

Definition bits_Or (p : ptr) (i v : Z) : Go unit :=
  f ← deref p;
  old ← index (bits f) i;
  assign p (set_bits f (<[Z.to_nat i := Z.lor old v]> (bits f))).

Definition bits_Store (p : ptr) (i v : Z) : Go unit :=
  f ← deref p;
  _ ← index (bits f) i;
  assign p (set_bits f (<[Z.to_nat i := v]> (bits f))).

(** *** The atomic counter: [f.n.Load()], [.Add(d)], [.Store(v)] *)

Definition n_Load (p : ptr) : Go Z := f ← deref p; mret (n f).

Definition n_Add (p : ptr) (d : Z) : Go unit :=
  f ← deref p; assign p (set_n f (wrap64 (n f + d))).

Definition n_Store (p : ptr) (v : Z) : Go unit :=
  f ← deref p; assign p (set_n f v).

(** ** bloomfilter.go *)

(** [hash]: the argument [v] stands for [v.Sum64()]. *)
Definition hash (p : ptr) (v : Z) : Go (list Z) :=
  f ← deref p; mret (map (Z.lxor v) (keys f)).

Definition M (p : ptr) : Go Z := f ← deref p; mret (m f).

(** [len] of a slice fits Go's [int], so the conversion to [uint64] is exact. *)
Definition K (p : ptr) : Go Z := f ← deref p; mret (Z.of_nat (length (keys f))).

Definition N (p : ptr) : Go Z := n_Load p.

Definition Add (p : ptr) (v : Z) : Go unit :=
  h ← hash p v;
  RLock p;;
  defer (RUnlock p)
    (range h (λ i,
       fm ← M p;
       i ← rem i fm;
       bits_Or p (i ≫ 6) (1 ≪ Z.land i 63));;
     n_Add p 1).

(** In [AddC] the read lock is released at once (there is no [defer]). *)
Definition AddC (p : ptr) (v : Z) : Go bool :=
  h ← hash p v;
  RLock p;;
  RUnlock p;;
  r ← rangeVar h 1 (λ r i,
         fm ← M p;
         i ← rem i fm;
         w ← bits_Load p (i ≫ 6);
         bits_Or p (i ≫ 6) (1 ≪ Z.land i 63);;
         mret (Z.land r (Z.land (w ≫ Z.land i 63) 1)));
  n_Add p 1;;
  mret (uint64ToBool r).

Definition Contains (p : ptr) (v : Z) : Go bool :=
  h ← hash p v;
  RLock p;;
  defer (RUnlock p)
    (r ← rangeVar h 1 (λ r i,
            fm ← M p;
            i ← rem i fm;
            w ← bits_Load p (i ≫ 6);
            mret (Z.land r (Z.land (w ≫ Z.land i 63) 1)));
     mret (uint64ToBool r)).

(** The scenario of the package documentation: one word, one key. *)
Definition demo : world :=
  mkWorld [mkFilter [0] [1] 64 0] [].

Example demo_Add :
  Add 0%nat 5 demo
  = Done (tt, mkWorld [mkFilter [16] [1] 64 1] [EvRLock 0%nat; EvRUnlock 0%nat]).
Proof. reflexivity. Qed.

Example demo_Contains :
  (Add 0%nat 5;; Contains 0%nat 5) demo
  = Done (true, mkWorld [mkFilter [16] [1] 64 1]
                  [EvRLock 0%nat; EvRUnlock 0%nat; EvRLock 0%nat; EvRUnlock 0%nat]).
Proof. reflexivity. Qed.

Example demo_false_positive :
  ∃ w, (Add 0%nat 5;; Contains 0%nat 69) demo = Done (true, w).
Proof. eexists. reflexivity. Qed.

Example demo_absent : ∃ w, Contains 0%nat 5 demo = Done (false, w).
Proof. eexists. reflexivity. Qed.

(** ** errors.go *)

(** Go's [error] values of this package: the results of [fmt.Errorf] and
    the [errIncompatible] struct. *)
Inductive error : Type :=
| errorString (msg : string)
| errIncompatible (s : list string).

(** Results of the Go functions that return a filter pointer and an error. *)
Inductive result (A : Type) : Type :=
| Ok (a : A)
| Err (e : error).
Arguments Ok {A} a.
Arguments Err {A} e.

(** [strings.Join] *)
Fixpoint Join (elems : list string) (sep : string) : string :=
  match elems with
  | [] => ""
  | x :: t =>
      match t with
      | [] => x
      | _ :: _ => x +:+ sep +:+ Join t sep
      end
  end.

Definition nonempty (s : string) : bool :=
  match s with
  | EmptyString => false
  | String _ _ => true
  end.

Definition errHash : error :=
  errorString "Hash mismatch, the Bloom filter is probably corrupt".

Definition errUniqueKeys : error :=
  errorString "Bloom filter keys must be unique".

Definition ErrIncompatible : error := errIncompatible ["example"].

Definition Error (e : error) : string :=
  match e with
  | errorString msg => msg
  | errIncompatible s =>
      "Cannot perform union on two incompatible Bloom filters: "
      +:+ Join (filter (λ i, nonempty i = true) s) ", "
  end.

(** [(e *errIncompatible) Is(err)] *)
Definition Is (err : error) : bool :=
  match err with
  | errIncompatible _ => true
  | errorString _ => false
  end.

Definition errIncompatibleBloomFilters (s : list string) : error :=
  errIncompatible s.

(** ** compatible.go *)

(** A slice with the index of each element, as [for i, x := range l] sees it. *)
Definition indexed {A : Type} (l : list A) : list (nat * A) :=
  zip (seq 0 (length l)) l.

Definition noBranchCompareUint64s (b0 b1 : list Z) : Go Z :=
  rangeVar (indexed b0) 0 (λ r ib,
    b1i ← index b1 (Z.of_nat ib.1);
    mret (Z.lor r (Z.lxor ib.2 b1i))).

Definition isCompatible (p q : ptr) : Go bool :=
  m1 ← M p;
  m2 ← M q;
  if negb (m1 =? m2) then mret false
  else
    k1 ← K p;
    k2 ← K q;
    if negb (k1 =? k2) then mret false
    else
      f ← deref p;
      f2 ← deref q;
      r ← noBranchCompareUint64s (keys f) (keys f2);
      mret (r =? 0).

Definition IsCompatible (p q : ptr) : Go bool :=
  RLock p;;
  defer (RUnlock p)
    (RLock q;;
     defer (RUnlock q) (isCompatible p q)).

(** [fmt.Sprintf("X=%d and X=%d", a, b)] *)
Definition Sprintf_and (label : string) (a b : Z) : string :=
  label +:+ "=" +:+ pretty a +:+ " and " +:+ label +:+ "=" +:+ pretty b.

Definition verifyCompatible (p q : ptr) : Go (option error) :=
  RLock p;;
  defer (RUnlock p)
    (RLock q;;
     defer (RUnlock q)
       (c ← isCompatible p q;
        if (c : bool) then mret None
        else
          m1 ← M p;
          m2 ← M q;
          k1 ← K p;
          k2 ← K q;
          let e0 := if negb (m1 =? m2) then Sprintf_and "M" k1 k2 else "" in
          let e1 := if negb (k1 =? k2) then Sprintf_and "K" k1 k2 else "" in
          f ← deref p;
          f2 ← deref q;
          r ← noBranchCompareUint64s (keys f) (keys f2);
          let e2 := if negb (r =? 0) then "Mismatched Keys" else "" in
          mret (Some (errIncompatibleBloomFilters [e0; e1; e2])))).

(** ** Construction *)

(** Number of 64-bit words of a vector of [x] bits. *)
Definition nwords (x : Z) : nat := Z.to_nat ((x + 63) / 64).

(** Modelled from the spec: [NewCompatible] is not among the sources.  It
    "clones another filter's (m, keys) with a zeroed bit vector and n=0",
    the vector having [ceil(m/64)] words. *)
Definition NewCompatible (p : ptr) : Go (result ptr) :=
  f ← deref p;
  out ← alloc (mkFilter (replicate (nwords (m f)) 0) (keys f) (m f) 0);
  mret (Ok out).

(** The filter that [NewCompatible] allocates. *)
Definition sibling (f : Filter) : Filter :=
  mkFilter (replicate (nwords (m f)) 0) (keys f) (m f) 0.

(** ** bloomfilter.go, continued *)

Definition getBits (p : ptr) : Go (list Z) :=
  f ← deref p;
  rangeVar (seq 0 (length (bits f))) (replicate (length (bits f)) 0)
    (λ out i, v ← bits_Load p (Z.of_nat i); mret (<[i := v]> out)).

Definition setBits (p : ptr) (b : list Z) : Go unit :=
  f ← deref p;
  range (indexed (take (Nat.min (length b) (length (bits f))) b))
    (λ iv, bits_Store p (Z.of_nat iv.1) iv.2).

Definition Copy (p : ptr) : Go (result ptr) :=
  r ← NewCompatible p;
  match r with
  | Err e => mret (Err e)
  | Ok out =>
      Lock p;;
      defer (Unlock p)
        (b ← getBits p;
         setBits out b;;
         c ← n_Load p;
         n_Store out c;;
         mret (Ok out))
  end.

Definition UnionInPlace (p q : ptr) : Go (option error) :=
  RLock p;;
  defer (RUnlock p)
    (RLock q;;
     defer (RUnlock q)
       (err ← verifyCompatible p q;
        match err with
        | Some e => mret (Some e)
        | None =>
            f2 ← deref q;
            range (seq 0 (length (bits f2))) (λ i,
              word ← bits_Load q (Z.of_nat i);
              bits_Or p (Z.of_nat i) word);;
            mret None
        end)).

Definition Union (p q : ptr) : Go (result ptr) :=
  RLock p;;
  defer (RUnlock p)
    (RLock q;;
     defer (RUnlock q)
       (err ← verifyCompatible p q;
        match err with
        | Some e => mret (Err e)
        | None =>
            r ← NewCompatible p;
            match r with
            | Err e => mret (Err e)
            | Ok out =>
                f2 ← deref q;
                range (seq 0 (length (bits f2))) (λ i,
                  word ← bits_Load q (Z.of_nat i);
                  a ← bits_Load p (Z.of_nat i);
                  bits_Store out (Z.of_nat i) (Z.lor a word));;
                mret (Ok out)
            end
        end)).

(** ** statistics.go *)

(** [float64] is idealised by the real numbers; [math.Pow] at the integral
    exponent [float64(f.K())] is the iterated product. *)
Definition FalsePosititveProbability (p : ptr) : Go R :=
  k ← K p;
  c ← N p;
  fm ← M p;
  mret ((1 - exp (- IZR k) * (IZR c + 0.5) / (IZR fm - 1)) ^ Z.to_nat k)%R.

(** The formula of the function's documentation:
    [(1 - exp(-k*(n+0.5)/(m-1))) ** k]. *)
Definition documented_probability (k c fm : Z) : R :=
  ((1 - exp (- IZR k * (IZR c + 0.5) / (IZR fm - 1))) ^ Z.to_nat k)%R.

Definition two : world :=
  mkWorld [mkFilter [16] [1] 64 1; mkFilter [3] [1] 64 2] [].

(** * Reasoning about Go computations *)

Lemma run_bind {A B : Type} (c : Go A) (k : A → Go B) (w : world) :
  (c ≫= k) w = match c w with Done (a, w') => k a w' | Panic => Panic end.
Proof. reflexivity. Qed.

Lemma run_bind_Done {A B : Type} (c : Go A) (k : A → Go B) w a w' :
  c w = Done (a, w') → (c ≫= k) w = k a w'.
Proof. intros H. rewrite run_bind, H. reflexivity. Qed.

Lemma run_bind_Panic {A B : Type} (c : Go A) (k : A → Go B) w :
  c w = Panic → (c ≫= k) w = Panic.
Proof. intros H. rewrite run_bind, H. reflexivity. Qed.

Lemma bind_Done_inv {A B : Type} (c : Go A) (k : A → Go B) w r :
  (c ≫= k) w = Done r → ∃ a w1, c w = Done (a, w1) ∧ k a w1 = Done r.
Proof.
  rewrite run_bind. destruct (c w) as [[a w1]|]; [|discriminate].
  intros H. exists a, w1. split; [reflexivity|exact H].
Qed.

Lemma run_ret {A : Type} (a : A) w : (mret a : Go A) w = Done (a, w).
Proof. reflexivity. Qed.

Lemma run_deref p w f : heap w !! p = Some f → deref p w = Done (f, w).
Proof. intros H. unfold deref. rewrite H. reflexivity. Qed.

Lemma deref_Done_inv p w f w' :
  deref p w = Done (f, w') → w' = w ∧ heap w !! p = Some f.
Proof.
  unfold deref. destruct (heap w !! p) eqn:E; [|discriminate].
  intros [= -> ->]. split; reflexivity.
Qed.

Lemma index_Done_inv {A : Type} (l : list A) i x w w' :
  index l i w = Done (x, w') → w' = w ∧ 0 ≤ i ∧ l !! Z.to_nat i = Some x.
Proof.
  unfold index. destruct (Z.ltb_spec i 0); [discriminate|].
  destruct (l !! Z.to_nat i) eqn:E; [|discriminate].
  intros [= -> ->]. split; [reflexivity|split; [lia|reflexivity]].
Qed.

Lemma run_index {A : Type} (l : list A) i x w :
  0 ≤ i → l !! Z.to_nat i = Some x → index l i w = Done (x, w).
Proof.
  intros Hi Hx. unfold index. destruct (Z.ltb_spec i 0); [lia|].
  rewrite Hx. reflexivity.
Qed.

Lemma rem_Done_inv x y r w w' :
  rem x y w = Done (r, w') → w' = w ∧ y ≠ 0 ∧ r = x mod y.
Proof.
  unfold rem. destruct (Z.eqb_spec y 0); [discriminate|].
  intros [= <- <-]. split; [reflexivity|split; [assumption|reflexivity]].
Qed.

(** ** Lock events emitted by a computation *)

Definition emits {A : Type} (c : Go A) (evs : list lockEvent) : Prop :=
  ∀ w a w', c w = Done (a, w') → log w' = log w ++ evs.

Lemma emits_ret {A : Type} (a : A) : emits (mret a : Go A) [].
Proof. intros w a' w' H. inversion H; subst. symmetry. apply app_nil_r. Qed.

Lemma emits_bind {A B : Type} (c : Go A) (k : A → Go B) e1 e2 :
  emits c e1 → (∀ a, emits (k a) e2) → emits (c ≫= k) (e1 ++ e2).
Proof.
  intros Hc Hk w b w' H.
  apply bind_Done_inv in H as (a & w1 & H1 & H2).
  rewrite (Hk _ _ _ _ H2), (Hc _ _ _ H1). symmetry. apply app_assoc.
Qed.

Lemma emits_silent_bind {A B : Type} (c : Go A) (k : A → Go B) :
  emits c [] → (∀ a, emits (k a) []) → emits (c ≫= k) [].
Proof. intros Hc Hk. apply (emits_bind c k [] []); assumption. Qed.

Lemma emits_deref p : emits (deref p) [].
Proof.
  intros w f w' H. apply deref_Done_inv in H as [-> _].
  symmetry. apply app_nil_r.
Qed.

Lemma emits_assign p f : emits (assign p f) [].
Proof. intros w a w' H. inversion H; subst. simpl. symmetry. apply app_nil_r. Qed.

Lemma emits_alloc f : emits (alloc f) [].
Proof. intros w a w' H. inversion H; subst. simpl. symmetry. apply app_nil_r. Qed.

Lemma emits_emit e : emits (emit e) [e].
Proof. intros w a w' H. inversion H; subst. reflexivity. Qed.

Lemma emits_index {A : Type} (l : list A) i : emits (index l i) [].
Proof.
  intros w x w' H. apply index_Done_inv in H as [-> _].
  symmetry. apply app_nil_r.
Qed.

Lemma emits_rem x y : emits (rem x y) [].
Proof.
  intros w r w' H. apply rem_Done_inv in H as [-> _].
  symmetry. apply app_nil_r.
Qed.

Lemma emits_range {A : Type} (l : list A) (body : A → Go unit) :
  (∀ x, emits (body x) []) → emits (range l body) [].
Proof.
  intros Hb. induction l as [|x t IH]; simpl.
  - apply emits_ret.
  - apply emits_silent_bind; [apply Hb|intros _; exact IH].
Qed.

Lemma emits_rangeVar {A S : Type} (l : list A) (s : S) (body : S → A → Go S) :
  (∀ s x, emits (body s x) []) → emits (rangeVar l s body) [].
Proof.
  intros Hb. revert s. induction l as [|x t IH]; intros s; simpl.
  - apply emits_ret.
  - apply emits_silent_bind; [apply Hb|intros s'; apply IH].
Qed.

Lemma emits_defer {A : Type} (d : Go unit) (body : Go A) eb ed :
  emits body eb → emits d ed → emits (defer d body) (eb ++ ed).
Proof.
  intros Hb Hd. unfold defer. apply emits_bind; [exact Hb|].
  intros a. replace ed with (ed ++ []) by apply app_nil_r.
  apply emits_bind; [exact Hd|]. intros _. apply emits_ret.
Qed.

Create HintDb silent.

#[global] Hint Resolve emits_ret emits_deref emits_assign emits_alloc
  emits_index emits_rem emits_silent_bind emits_range emits_rangeVar : silent.
#[global] Hint Extern 1 (emits (if ?b then _ else _) _) => destruct b : silent.
#[global] Hint Extern 1 (emits (match ?r with Ok _ => _ | Err _ => _ end) _) =>
  destruct r : silent.
#[global] Hint Extern 1 (emits (match ?r with Some _ => _ | None => _ end) _) =>
  destruct r : silent.

(** Proves that a computation without lock calls emits nothing. *)
Ltac silent := auto 60 with silent nocore.

Lemma emits_RLock p : emits (RLock p) [EvRLock p].
Proof.
  apply (emits_bind (deref p) _ [] [EvRLock p]);
    [apply emits_deref|intros _; apply emits_emit].
Qed.

Lemma emits_RUnlock p : emits (RUnlock p) [EvRUnlock p].
Proof.
  apply (emits_bind (deref p) _ [] [EvRUnlock p]);
    [apply emits_deref|intros _; apply emits_emit].
Qed.

Lemma emits_Lock p : emits (Lock p) [EvLock p].
Proof.
  apply (emits_bind (deref p) _ [] [EvLock p]);
    [apply emits_deref|intros _; apply emits_emit].
Qed.

Lemma emits_Unlock p : emits (Unlock p) [EvUnlock p].
Proof.
  apply (emits_bind (deref p) _ [] [EvUnlock p]);
    [apply emits_deref|intros _; apply emits_emit].
Qed.

Lemma emits_bits_Load p i : emits (bits_Load p i) [].
Proof. unfold bits_Load. silent. Qed.

Lemma emits_bits_Or p i v : emits (bits_Or p i v) [].
Proof. unfold bits_Or. silent. Qed.

Lemma emits_bits_Store p i v : emits (bits_Store p i v) [].
Proof. unfold bits_Store. silent. Qed.

Lemma emits_M p : emits (M p) [].
Proof. unfold M. silent. Qed.

Lemma emits_K p : emits (K p) [].
Proof. unfold K. silent. Qed.

Lemma emits_n_Load p : emits (n_Load p) [].
Proof. unfold n_Load. silent. Qed.

Lemma emits_n_Add p d : emits (n_Add p d) [].
Proof. unfold n_Add. silent. Qed.

Lemma emits_n_Store p v : emits (n_Store p v) [].
Proof. unfold n_Store. silent. Qed.

Lemma emits_hash p v : emits (hash p v) [].
Proof. unfold hash. silent. Qed.

#[global] Hint Resolve emits_bits_Load emits_bits_Or emits_bits_Store emits_M
  emits_K emits_n_Load emits_n_Add emits_n_Store emits_hash : silent.

Lemma emits_noBranchCompareUint64s b0 b1 :
  emits (noBranchCompareUint64s b0 b1) [].
Proof. unfold noBranchCompareUint64s. silent. Qed.

#[global] Hint Resolve emits_noBranchCompareUint64s : silent.

Lemma emits_isCompatible p q : emits (isCompatible p q) [].
Proof. unfold isCompatible. silent. Qed.

Lemma emits_NewCompatible p : emits (NewCompatible p) [].
Proof. unfold NewCompatible. silent. Qed.

Lemma emits_getBits p : emits (getBits p) [].
Proof. unfold getBits. silent. Qed.

Lemma emits_setBits p b : emits (setBits p b) [].
Proof. unfold setBits. silent. Qed.

#[global] Hint Resolve emits_isCompatible emits_NewCompatible emits_getBits
  emits_setBits : silent.

Lemma emits_bind_silent_l {A B : Type} (c : Go A) (k : A → Go B) e :
  emits c [] → (∀ a, emits (k a) e) → emits (c ≫= k) e.
Proof. intros Hc Hk. apply (emits_bind c k [] e); assumption. Qed.

Lemma emits_bind_silent_r {A B : Type} (c : Go A) (k : A → Go B) e :
  emits c e → (∀ a, emits (k a) []) → emits (c ≫= k) e.
Proof.
  intros Hc Hk. replace e with (e ++ []) by apply app_nil_r.
  apply emits_bind; assumption.
Qed.

(** The two read locks that the binary operations take, with their
    deferred releases. *)
Lemma emits_RLock2 {A : Type} p q (body : Go A) eb :
  emits body eb →
  emits (RLock p;; defer (RUnlock p) (RLock q;; defer (RUnlock q) body))
        (EvRLock p :: EvRLock q :: eb ++ [EvRUnlock q; EvRUnlock p]).
Proof.
  intros Hb.
  apply (emits_bind _ _ [EvRLock p] (EvRLock q :: eb ++ [EvRUnlock q; EvRUnlock p]));
    [apply emits_RLock|intros _].
  replace (EvRLock q :: eb ++ [EvRUnlock q; EvRUnlock p])
    with (([EvRLock q] ++ eb ++ [EvRUnlock q]) ++ [EvRUnlock p])
    by (simpl; rewrite <- app_assoc; reflexivity).
  apply emits_defer; [|apply emits_RUnlock].
  apply emits_bind; [apply emits_RLock|intros _].
  apply emits_defer; [exact Hb|apply emits_RUnlock].
Qed.

Lemma emits_Add p v : emits (Add p v) [EvRLock p; EvRUnlock p].
Proof.
  unfold Add. apply emits_bind_silent_l; [silent|intros h].
  apply (emits_bind _ _ [EvRLock p] [EvRUnlock p]); [apply emits_RLock|intros _].
  apply (emits_defer _ _ [] [EvRUnlock p]); [silent|apply emits_RUnlock].
Qed.

Lemma emits_AddC p v : emits (AddC p v) [EvRLock p; EvRUnlock p].
Proof.
  unfold AddC. apply emits_bind_silent_l; [silent|intros h].
  apply (emits_bind _ _ [EvRLock p] [EvRUnlock p]); [apply emits_RLock|intros _].
  apply emits_bind_silent_r; [apply emits_RUnlock|intros _]. silent.
Qed.

Lemma emits_Contains p v : emits (Contains p v) [EvRLock p; EvRUnlock p].
Proof.
  unfold Contains. apply emits_bind_silent_l; [silent|intros h].
  apply (emits_bind _ _ [EvRLock p] [EvRUnlock p]); [apply emits_RLock|intros _].
  apply (emits_defer _ _ [] [EvRUnlock p]); [silent|apply emits_RUnlock].
Qed.

Lemma emits_IsCompatible p q :
  emits (IsCompatible p q) [EvRLock p; EvRLock q; EvRUnlock q; EvRUnlock p].
Proof. apply (emits_RLock2 p q _ []). silent. Qed.

Lemma emits_verifyCompatible p q :
  emits (verifyCompatible p q) [EvRLock p; EvRLock q; EvRUnlock q; EvRUnlock p].
Proof. apply (emits_RLock2 p q _ []). silent. Qed.

Lemma emits_UnionInPlace p q :
  emits (UnionInPlace p q)
    [EvRLock p; EvRLock q; EvRLock p; EvRLock q;
     EvRUnlock q; EvRUnlock p; EvRUnlock q; EvRUnlock p].
Proof.
  apply (emits_RLock2 p q _ [EvRLock p; EvRLock q; EvRUnlock q; EvRUnlock p]).
  apply emits_bind_silent_r; [apply emits_verifyCompatible|silent].
Qed.

Lemma emits_Union p q :
  emits (Union p q)
    [EvRLock p; EvRLock q; EvRLock p; EvRLock q;
     EvRUnlock q; EvRUnlock p; EvRUnlock q; EvRUnlock p].
Proof.
  apply (emits_RLock2 p q _ [EvRLock p; EvRLock q; EvRUnlock q; EvRUnlock p]).
  apply emits_bind_silent_r; [apply emits_verifyCompatible|silent].
Qed.

Lemma NewCompatible_Done_inv p w r w' :
  NewCompatible p w = Done (r, w') →
  ∃ f, heap w !! p = Some f ∧ r = Ok (length (heap w))
       ∧ w' = mkWorld (heap w ++ [sibling f]) (log w).
Proof.
  unfold NewCompatible. intros H.
  apply bind_Done_inv in H as (f & w1 & H1 & H2).
  apply deref_Done_inv in H1 as [-> Hf].
  inversion H2; subst. exists f. repeat split. exact Hf.
Qed.

Lemma emits_Copy p : emits (Copy p) [EvLock p; EvUnlock p].
Proof.
  assert (E : ∀ out : ptr,
    emits (Lock p;;
           defer (Unlock p)
             (b ← getBits p; setBits out b;;
              c ← n_Load p; n_Store out c;;
              mret (Ok out)))
          [EvLock p; EvUnlock p]).
  { intros out.
    apply (emits_bind _ _ [EvLock p] [EvUnlock p]); [apply emits_Lock|intros _].
    apply (emits_defer _ _ [] [EvUnlock p]); [silent|apply emits_Unlock]. }
  intros w a w' H. unfold Copy in H.
  apply bind_Done_inv in H as (r & w1 & H1 & H2).
  apply NewCompatible_Done_inv in H1 as (f & Hf & -> & ->).
  apply E in H2. exact H2.
Qed.

(** ** What a computation keeps of the filters that exist *)

(** Every bit set in [w] is set in [w']. *)
Definition word_sub (w w' : Z) : Prop :=
  ∀ j, Z.testbit w j = true → Z.testbit w' j = true.

(** [f'] is a later state of [f]: same size and keys, no bit cleared. *)
Definition kept (f f' : Filter) : Prop :=
  m f' = m f ∧ keys f' = keys f ∧ Forall2 word_sub (bits f) (bits f').

Definition below (k : nat) (h h' : list Filter) : Prop :=
  ∀ p f, (p < k)%nat → h !! p = Some f → ∃ f', h' !! p = Some f' ∧ kept f f'.

Definition extends (k : nat) (w w' : world) : Prop :=
  (k ≤ length (heap w))%nat →
  (length (heap w) ≤ length (heap w'))%nat ∧ below k (heap w) (heap w').

(** [stable k c]: whenever [c] returns, the first [k] filters of the store
    are kept. *)
Definition stable {A : Type} (k : nat) (c : Go A) : Prop :=
  ∀ w a w', c w = Done (a, w') → extends k w w'.

Lemma word_sub_refl w : word_sub w w.
Proof. intros j H. exact H. Qed.

Lemma word_sub_trans a b c : word_sub a b → word_sub b c → word_sub a c.
Proof. intros H1 H2 j H. apply H2, H1, H. Qed.

Lemma word_sub_lor w v : word_sub w (Z.lor w v).
Proof. intros j H. rewrite Z.lor_spec, H. reflexivity. Qed.

Lemma word_sub_zero w : word_sub 0 w.
Proof. intros j H. rewrite Z.bits_0 in H. discriminate. Qed.

Lemma bits_sub_refl (l : list Z) : Forall2 word_sub l l.
Proof. induction l; constructor; [apply word_sub_refl|assumption]. Qed.

Lemma bits_sub_trans (a b c : list Z) :
  Forall2 word_sub a b → Forall2 word_sub b c → Forall2 word_sub a c.
Proof.
  intros H. revert c. induction H as [|x y l k Hxy _ IH]; intros c Hc.
  - inversion Hc. constructor.
  - inversion Hc; subst. constructor.
    + eapply word_sub_trans; eassumption.
    + apply IH. assumption.
Qed.

Lemma bits_sub_insert (l : list Z) (i : nat) (old new : Z) :
  l !! i = Some old → word_sub old new → Forall2 word_sub l (<[i := new]> l).
Proof.
  revert i. induction l as [|x t IH]; intros [|i] H Hs; simpl in *;
    try discriminate.
  - inversion H; subst. constructor; [exact Hs|apply bits_sub_refl].
  - constructor; [apply word_sub_refl|]. apply IH; assumption.
Qed.

Lemma kept_refl f : kept f f.
Proof. repeat split. apply bits_sub_refl. Qed.

Lemma kept_trans f g h : kept f g → kept g h → kept f h.
Proof.
  intros (Hm1 & Hk1 & Hb1) (Hm2 & Hk2 & Hb2). repeat split.
  - congruence.
  - congruence.
  - eapply bits_sub_trans; eassumption.
Qed.

Lemma extends_refl k w : extends k w w.
Proof.
  intros _. split; [lia|]. intros p f _ H. exists f.
  split; [exact H|apply kept_refl].
Qed.

Lemma extends_trans k w1 w2 w3 :
  extends k w1 w2 → extends k w2 w3 → extends k w1 w3.
Proof.
  intros H12 H23 Hk. destruct (H12 Hk) as [L12 B12].
  destruct H23 as [L23 B23]; [lia|]. split; [lia|].
  intros p f Hp Hf. destruct (B12 p f Hp Hf) as (g & Hg & K1).
  destruct (B23 p g Hp Hg) as (h & Hh & K2).
  exists h. split; [exact Hh|]. eapply kept_trans; eassumption.
Qed.

Lemma extends_log k w evs : extends k w (mkWorld (heap w) evs).
Proof.
  intros _. split; [simpl; lia|]. intros p f _ H. exists f.
  split; [exact H|apply kept_refl].
Qed.

(** An in-place update of one filter by a later state of it. *)
Lemma extends_update k w p f f' :
  heap w !! p = Some f → kept f f' →
  extends k w (mkWorld (<[p := f']> (heap w)) (log w)).
Proof.
  intros Hf Hk _. simpl. rewrite length_insert. split; [lia|].
  intros p' g _ Hg. destruct (decide (p = p')) as [<-|Hne].
  - exists f'. split.
    + apply list_lookup_insert_eq. eapply lookup_lt_Some. exact Hf.
    + rewrite Hf in Hg. inversion Hg; subst. exact Hk.
  - exists g. rewrite list_lookup_insert_ne by exact Hne.
    split; [exact Hg|apply kept_refl].
Qed.

(** Any update of a filter outside the first [k]. *)
Lemma extends_above k w p f' :
  (k ≤ p)%nat → extends k w (mkWorld (<[p := f']> (heap w)) (log w)).
Proof.
  intros Hp _. simpl. rewrite length_insert. split; [lia|].
  intros p' g Hp' Hg. exists g.
  rewrite list_lookup_insert_ne by lia. split; [exact Hg|apply kept_refl].
Qed.

Lemma extends_alloc k w f :
  extends k w (mkWorld (heap w ++ [f]) (log w)).
Proof.
  intros _. simpl. rewrite length_app. split; [simpl; lia|].
  intros p g _ Hg. exists g. split; [|apply kept_refl].
  apply lookup_app_l_Some. exact Hg.
Qed.

Lemma stable_ret {A : Type} k (a : A) : stable k (mret a : Go A).
Proof. intros w a' w' H. inversion H; subst. apply extends_refl. Qed.

Lemma stable_bind {A B : Type} k (c : Go A) (f : A → Go B) :
  stable k c → (∀ a, stable k (f a)) → stable k (c ≫= f).
Proof.
  intros Hc Hf w b w' H. apply bind_Done_inv in H as (a & w1 & H1 & H2).
  eapply extends_trans; [eapply Hc|eapply Hf]; eassumption.
Qed.

(** The same rule, when the continuation relies on a property of the
    value that the first computation returns. *)
Lemma stable_bind_post {A B : Type} k (Q : A → Prop) (c : Go A) (f : A → Go B) :
  (∀ w a w', c w = Done (a, w') → (k ≤ length (heap w))%nat → Q a) →
  stable k c → (∀ a, Q a → stable k (f a)) → stable k (c ≫= f).
Proof.
  intros HQ Hc Hf w b w' H Hk.
  apply bind_Done_inv in H as (a & w1 & H1 & H2).
  generalize Hk. eapply extends_trans; [eapply Hc; eassumption|].
  eapply Hf; [eapply HQ; eassumption|eassumption].
Qed.

Lemma stable_deref k p : stable k (deref p).
Proof.
  intros w f w' H. apply deref_Done_inv in H as [-> _]. apply extends_refl.
Qed.

Lemma stable_emit k e : stable k (emit e).
Proof. intros w a w' H. inversion H; subst. apply extends_log. Qed.

Lemma stable_alloc k f : stable k (alloc f).
Proof. intros w a w' H. inversion H; subst. apply extends_alloc. Qed.

Lemma stable_index {A : Type} k (l : list A) i : stable k (index l i).
Proof.
  intros w f w' H. apply index_Done_inv in H as [-> _]. apply extends_refl.
Qed.

Lemma stable_rem k x y : stable k (rem x y).
Proof.
  intros w f w' H. apply rem_Done_inv in H as [-> _]. apply extends_refl.
Qed.

Lemma stable_range {A : Type} k (l : list A) (body : A → Go unit) :
  (∀ x, stable k (body x)) → stable k (range l body).
Proof.
  intros Hb. induction l as [|x t IH]; simpl.
  - apply stable_ret.
  - apply stable_bind; [apply Hb|intros _; exact IH].
Qed.

Lemma stable_rangeVar {A S : Type} k (l : list A) (s : S) (body : S → A → Go S) :
  (∀ s x, stable k (body s x)) → stable k (rangeVar l s body).
Proof.
  intros Hb. revert s. induction l as [|x t IH]; intros s; simpl.
  - apply stable_ret.
  - apply stable_bind; [apply Hb|intros s'; apply IH].
Qed.

Lemma stable_defer {A : Type} k (d : Go unit) (body : Go A) :
  stable k body → stable k d → stable k (defer d body).
Proof.
  intros Hb Hd. unfold defer. apply stable_bind; [exact Hb|intros a].
  apply stable_bind; [exact Hd|intros _; apply stable_ret].
Qed.

Create HintDb stable.

#[global] Hint Resolve stable_ret stable_bind stable_deref stable_emit
  stable_alloc stable_index stable_rem stable_range stable_rangeVar
  stable_defer : stable.
#[global] Hint Extern 1 (stable _ (if ?b then _ else _)) => destruct b : stable.
#[global] Hint Extern 1 (stable _ (match ?r with Ok _ => _ | Err _ => _ end)) =>
  destruct r : stable.
#[global] Hint Extern 1 (stable _ (match ?r with Some _ => _ | None => _ end)) =>
  destruct r : stable.

Ltac stable := auto 60 with stable nocore.

Lemma stable_RLock k p : stable k (RLock p).
Proof. unfold RLock. stable. Qed.

Lemma stable_RUnlock k p : stable k (RUnlock p).
Proof. unfold RUnlock. stable. Qed.

Lemma stable_Lock k p : stable k (Lock p).
Proof. unfold Lock. stable. Qed.

Lemma stable_Unlock k p : stable k (Unlock p).
Proof. unfold Unlock. stable. Qed.

Lemma stable_bits_Load k p i : stable k (bits_Load p i).
Proof. unfold bits_Load. stable. Qed.

(** The atomic OR never clears a bit. *)
Lemma stable_bits_Or k p i v : stable k (bits_Or p i v).
Proof.
  intros w a w' H. unfold bits_Or in H.
  apply bind_Done_inv in H as (f & w1 & H1 & H).
  apply deref_Done_inv in H1 as [-> Hf].
  apply bind_Done_inv in H as (old & w1 & H1 & H).
  apply index_Done_inv in H1 as (-> & Hi & Hold).
  inversion H; subst. eapply extends_update; [exact Hf|].
  repeat split. simpl.
  eapply bits_sub_insert; [exact Hold|apply word_sub_lor].
Qed.

(** A store may clear bits: it is harmless only outside the first [k]. *)
Lemma stable_bits_Store k p i v : (k ≤ p)%nat → stable k (bits_Store p i v).
Proof.
  intros Hp w a w' H. unfold bits_Store in H.
  apply bind_Done_inv in H as (f & w1 & H1 & H).
  apply deref_Done_inv in H1 as [-> Hf].
  apply bind_Done_inv in H as (old & w1 & H1 & H).
  apply index_Done_inv in H1 as (-> & Hi & Hold).
  inversion H; subst. apply extends_above. exact Hp.
Qed.

Lemma stable_n_Load k p : stable k (n_Load p).
Proof. unfold n_Load. stable. Qed.

Lemma stable_n_Store k p v : stable k (n_Store p v).
Proof.
  intros w a w' H. unfold n_Store in H.
  apply bind_Done_inv in H as (f & w1 & H1 & H).
  apply deref_Done_inv in H1 as [-> Hf].
  inversion H; subst. eapply extends_update; [exact Hf|].
  repeat split. apply bits_sub_refl.
Qed.

Lemma stable_n_Add k p d : stable k (n_Add p d).
Proof.
  intros w a w' H. unfold n_Add in H.
  apply bind_Done_inv in H as (f & w1 & H1 & H).
  apply deref_Done_inv in H1 as [-> Hf].
  inversion H; subst. eapply extends_update; [exact Hf|].
  repeat split. apply bits_sub_refl.
Qed.

Lemma stable_hash k p v : stable k (hash p v).
Proof. unfold hash. stable. Qed.

Lemma stable_M k p : stable k (M p).
Proof. unfold M. stable. Qed.

Lemma stable_K k p : stable k (K p).
Proof. unfold K. stable. Qed.

#[global] Hint Resolve stable_RLock stable_RUnlock stable_Lock stable_Unlock
  stable_bits_Load stable_bits_Or stable_bits_Store stable_n_Load
  stable_n_Store stable_n_Add stable_hash stable_M stable_K : stable.

Lemma stable_noBranchCompareUint64s k b0 b1 :
  stable k (noBranchCompareUint64s b0 b1).
Proof. unfold noBranchCompareUint64s. stable. Qed.

#[global] Hint Resolve stable_noBranchCompareUint64s : stable.

Lemma stable_isCompatible k p q : stable k (isCompatible p q).
Proof. unfold isCompatible. stable. Qed.

#[global] Hint Resolve stable_isCompatible : stable.

Lemma stable_IsCompatible k p q : stable k (IsCompatible p q).
Proof. unfold IsCompatible. stable. Qed.

Lemma stable_verifyCompatible k p q : stable k (verifyCompatible p q).
Proof. unfold verifyCompatible. stable. Qed.

Lemma stable_NewCompatible k p : stable k (NewCompatible p).
Proof. unfold NewCompatible. stable. Qed.

Lemma stable_getBits k p : stable k (getBits p).
Proof. unfold getBits. stable. Qed.

Lemma stable_setBits k p b : (k ≤ p)%nat → stable k (setBits p b).
Proof. intros Hp. unfold setBits. stable. Qed.

#[global] Hint Resolve stable_verifyCompatible stable_NewCompatible
  stable_getBits stable_setBits : stable.

Lemma stable_Add k p v : stable k (Add p v).
Proof. unfold Add. stable. Qed.

Lemma stable_AddC k p v : stable k (AddC p v).
Proof. unfold AddC. stable. Qed.

Lemma stable_Contains k p v : stable k (Contains p v).
Proof. unfold Contains. stable. Qed.

Lemma stable_UnionInPlace k p q : stable k (UnionInPlace p q).
Proof. unfold UnionInPlace. stable. Qed.

(** [NewCompatible] returns a pointer past every filter that existed. *)
Lemma NewCompatible_fresh k p w r w' :
  NewCompatible p w = Done (r, w') → (k ≤ length (heap w))%nat →
  ∀ out, r = Ok out → (k ≤ out)%nat.
Proof.
  intros H Hk out ->.
  apply NewCompatible_Done_inv in H as (f & _ & E & _).
  inversion E; subst. exact Hk.
Qed.

Lemma stable_Union k p q : stable k (Union p q).
Proof.
  unfold Union. apply stable_bind; [stable|intros _].
  apply stable_defer; [|stable].
  apply stable_bind; [stable|intros _].
  apply stable_defer; [|stable].
  apply stable_bind; [stable|intros [e|]]; [stable|].
  apply (stable_bind_post k (λ r, ∀ out, r = Ok out → (k ≤ out)%nat)).
  - intros w a w'. apply NewCompatible_fresh.
  - stable.
  - intros [out|e] HQ; [|stable]. specialize (HQ out eq_refl). stable.
Qed.

Lemma stable_Copy k p : stable k (Copy p).
Proof.
  unfold Copy.
  apply (stable_bind_post k (λ r, ∀ out, r = Ok out → (k ≤ out)%nat)).
  - intros w a w'. apply NewCompatible_fresh.
  - stable.
  - intros [out|e] HQ; [|stable]. specialize (HQ out eq_refl). stable.
Qed.

(** * The bit vector *)

(** Bit [i] of the vector lives in word [i >> 6] at position [i & 0x3f]. *)
Definition getBit (bs : list Z) (i : Z) : bool :=
  match bs !! Z.to_nat (i ≫ 6) with
  | Some w => Z.testbit w (Z.land i 63)
  | None => false
  end.

(** The vector after [bits[i>>6].Or(1 << (i & 0x3f))]. *)
Definition orBit (bs : list Z) (i : Z) : list Z :=
  match bs !! Z.to_nat (i ≫ 6) with
  | Some w => <[Z.to_nat (i ≫ 6) := Z.lor w (1 ≪ Z.land i 63)]> bs
  | None => bs
  end.

(** The bit indices that a raw hash [v] selects in filter [f]. *)
Definition targets (f : Filter) (v : Z) : list Z :=
  map (λ i, i mod m f) (map (Z.lxor v) (keys f)).

(** The invariants that construction establishes. *)
Definition wf (f : Filter) : Prop :=
  1 ≤ m f ∧ length (bits f) = nwords (m f).

Lemma land63_nonneg i : 0 ≤ Z.land i 63.
Proof. apply Z.land_nonneg. right. lia. Qed.

Lemma word_index_lt x i : 0 ≤ i < x → (Z.to_nat (i ≫ 6) < nwords x)%nat.
Proof.
  intros Hi. unfold nwords. rewrite Z.shiftr_div_pow2 by lia.
  change (2 ^ 6) with 64.
  assert (0 ≤ i / 64) by (apply Z.div_pos; lia).
  assert (i / 64 < (x + 63) / 64).
  { apply Z.div_lt_upper_bound; [lia|].
    pose proof (Z.mul_div_le (x + 63) 64 ltac:(lia)).
    pose proof (Z.mod_pos_bound (x + 63) 64 ltac:(lia)).
    pose proof (Z.div_mod (x + 63) 64 ltac:(lia)). lia. }
  lia.
Qed.

Lemma word_index_nonneg i : 0 ≤ i → 0 ≤ i ≫ 6.
Proof. intros Hi. apply Z.shiftr_nonneg. exact Hi. Qed.

Lemma target_lookup (bs : list Z) x i :
  length bs = nwords x → 0 ≤ i < x → ∃ w, bs !! Z.to_nat (i ≫ 6) = Some w.
Proof.
  intros Hl Hi. apply lookup_lt_is_Some_2. rewrite Hl.
  apply word_index_lt. exact Hi.
Qed.

Lemma testbit_one_shiftl s : 0 ≤ s → Z.testbit (1 ≪ s) s = true.
Proof.
  intros Hs. rewrite Z.shiftl_spec by exact Hs.
  rewrite Z.sub_diag. reflexivity.
Qed.

Lemma lor_bit_set w s :
  0 ≤ s → Z.testbit w s = true → Z.lor w (1 ≪ s) = w.
Proof.
  intros Hs Hw. apply Z.bits_inj'. intros j Hj.
  rewrite Z.lor_spec, Z.shiftl_spec by exact Hj.
  destruct (Z.eq_dec j s) as [->|Hne].
  - rewrite Hw. reflexivity.
  - destruct (Z.testbit w j); [reflexivity|]. simpl.
    destruct (Z.lt_ge_cases (j - s) 0) as [Hlt|Hge].
    + apply Z.testbit_neg_r. exact Hlt.
    + apply Z.bits_above_log2; [lia|]. change (Z.log2 1) with 0. lia.
Qed.

Lemma land_shiftr_one w s :
  0 ≤ s → Z.land (w ≫ s) 1 = Z.b2z (Z.testbit w s).
Proof.
  intros Hs. change 1 with (Z.ones 1). rewrite Z.land_ones by lia.
  change (2 ^ 1) with 2. rewrite <- Z.bit0_mod.
  rewrite Z.shiftr_spec by lia. reflexivity.
Qed.

Lemma land_b2z a b : Z.land (Z.b2z a) (Z.b2z b) = Z.b2z (a && b).
Proof. destruct a, b; reflexivity. Qed.

Lemma uint64ToBool_b2z b : uint64ToBool (Z.b2z b) = b.
Proof. destruct b; reflexivity. Qed.

Lemma length_orBit bs i : length (orBit bs i) = length bs.
Proof.
  unfold orBit. destruct (bs !! Z.to_nat (i ≫ 6)); [|reflexivity].
  apply length_insert.
Qed.

Lemma orBit_sub bs i : Forall2 word_sub bs (orBit bs i).
Proof.
  unfold orBit. destruct (bs !! Z.to_nat (i ≫ 6)) as [w|] eqn:E.
  - eapply bits_sub_insert; [exact E|apply word_sub_lor].
  - apply bits_sub_refl.
Qed.

(** A bit that is set stays set in every later state of the vector. *)
Lemma getBit_sub bs bs' j :
  Forall2 word_sub bs bs' → getBit bs j = true → getBit bs' j = true.
Proof.
  intros H. unfold getBit.
  destruct (bs !! Z.to_nat (j ≫ 6)) as [w|] eqn:E; [|discriminate].
  destruct (Forall2_lookup_l _ _ _ _ _ H E) as (w' & E' & Hs).
  rewrite E'. apply Hs.
Qed.

Lemma getBit_orBit_same bs x i :
  length bs = nwords x → 0 ≤ i < x → getBit (orBit bs i) i = true.
Proof.
  intros Hl Hi. destruct (target_lookup bs x i Hl Hi) as [w E].
  unfold getBit, orBit. rewrite E.
  rewrite list_lookup_insert_eq by (eapply lookup_lt_Some; exact E).
  rewrite Z.lor_spec, testbit_one_shiftl by apply land63_nonneg.
  apply orb_true_r.
Qed.

Lemma orBit_set bs i : getBit bs i = true → orBit bs i = bs.
Proof.
  unfold getBit, orBit.
  destruct (bs !! Z.to_nat (i ≫ 6)) as [w|] eqn:E; [|reflexivity].
  intros Hw. rewrite lor_bit_set by (apply land63_nonneg || exact Hw).
  apply list_insert_id. exact E.
Qed.

Lemma length_fold_orBit ix bs : length (fold_left orBit ix bs) = length bs.
Proof.
  revert bs. induction ix as [|i t IH]; intros bs; simpl; [reflexivity|].
  rewrite IH. apply length_orBit.
Qed.

Lemma fold_orBit_sub ix bs : Forall2 word_sub bs (fold_left orBit ix bs).
Proof.
  revert bs. induction ix as [|i t IH]; intros bs; simpl.
  - apply bits_sub_refl.
  - eapply bits_sub_trans; [apply orBit_sub|apply IH].
Qed.

(** After the loop of [Add] every target bit ix set. *)
Lemma fold_orBit_targets ix bs x :
  length bs = nwords x → Forall (λ i, 0 ≤ i < x) ix →
  forallb (getBit (fold_left orBit ix bs)) ix = true.
Proof.
  intros Hl Hall. apply forallb_forall. intros i Hin.
  revert bs Hl. induction Hall as [|a t Ha _ IH]; intros bs Hl; [destruct Hin|].
  simpl. destruct Hin as [->|Hin].
  - eapply getBit_sub; [apply fold_orBit_sub|].
    eapply getBit_orBit_same; eassumption.
  - apply IH; [exact Hin|]. rewrite length_orBit. exact Hl.
Qed.

(** The flag that the loop of [AddC] accumulates: reading a bit and then
    setting it, index after index, sees exactly the bits set beforehand. *)
Lemma forallb_after_orBit bs i t :
  getBit bs i && forallb (getBit (orBit bs i)) t
  = getBit bs i && forallb (getBit bs) t.
Proof.
  destruct (getBit bs i) eqn:E; [|reflexivity].
  rewrite orBit_set by exact E. reflexivity.
Qed.

Lemma targets_range f v : 1 ≤ m f → Forall (λ i, 0 ≤ i < m f) (targets f v).
Proof.
  intros Hm. unfold targets. apply Forall_forall. intros i Hi.
  apply list_elem_of_In, in_map_iff in Hi as (j & <- & _).
  apply Z.mod_pos_bound. lia.
Qed.

(** ** Values stay within 64 bits

    The words are modelled as integers without a bound.  Every value that
    the operations write is again a [uint64] when the inputs are: no
    operation on the words needs a wrap-around. *)

Definition uint64 (x : Z) : Prop := 0 ≤ x < 2 ^ 64.

Lemma uint64_log2 x : 0 ≤ x → (x < 2 ^ 64 ↔ x = 0 ∨ Z.log2 x < 64).
Proof.
  intros Hx. destruct (Z.eq_dec x 0) as [->|Hne].
  - split; [left; reflexivity|intros _; reflexivity].
  - rewrite Z.log2_lt_pow2 by lia. split; [right; assumption|].
    intros [H|H]; [contradiction|exact H].
Qed.

Lemma uint64_lor x y : uint64 x → uint64 y → uint64 (Z.lor x y).
Proof.
  intros [Hx Hx'] [Hy Hy'].
  assert (H0 : 0 ≤ Z.lor x y) by (apply Z.lor_nonneg; split; assumption).
  split; [exact H0|]. apply uint64_log2; [exact H0|].
  apply uint64_log2 in Hx'; [|exact Hx]. apply uint64_log2 in Hy'; [|exact Hy].
  destruct Hx' as [->|Hx']; [rewrite Z.lor_0_l|].
  { destruct Hy' as [->|Hy']; [left; reflexivity|right; exact Hy']. }
  destruct Hy' as [->|Hy']; [rewrite Z.lor_0_r; right; exact Hx'|].
  right. rewrite Z.log2_lor by assumption. lia.
Qed.

Lemma uint64_lxor x y : uint64 x → uint64 y → uint64 (Z.lxor x y).
Proof.
  intros [Hx Hx'] [Hy Hy'].
  assert (H0 : 0 ≤ Z.lxor x y) by (apply Z.lxor_nonneg; tauto).
  split; [exact H0|]. apply uint64_log2; [exact H0|].
  apply uint64_log2 in Hx'; [|exact Hx]. apply uint64_log2 in Hy'; [|exact Hy].
  destruct Hx' as [->|Hx']; [rewrite Z.lxor_0_l|].
  { destruct Hy' as [->|Hy']; [left; reflexivity|right; exact Hy']. }
  destruct Hy' as [->|Hy']; [rewrite Z.lxor_0_r; right; exact Hx'|].
  right. pose proof (Z.log2_lxor x y Hx Hy). lia.
Qed.

Lemma uint64_mask i : uint64 (1 ≪ Z.land i 63).
Proof.
  assert (H : 0 ≤ Z.land i 63 < 64).
  { change 63 with (Z.ones 6). rewrite Z.land_ones by lia.
    apply Z.mod_pos_bound. reflexivity. }
  rewrite Z.shiftl_1_l. split; [apply Z.pow_nonneg; lia|].
  apply Z.pow_lt_mono_r; lia.
Qed.

Lemma uint64_orBit bs i : Forall uint64 bs → Forall uint64 (orBit bs i).
Proof.
  intros H. unfold orBit.
  destruct (bs !! Z.to_nat (i ≫ 6)) as [x|] eqn:E; [|exact H].
  apply Forall_insert; [exact H|].
  apply uint64_lor; [|apply uint64_mask].
  eapply Forall_lookup_1; eassumption.
Qed.

Lemma uint64_zip_lor (a b : list Z) :
  Forall uint64 a → Forall uint64 b → Forall uint64 (zip_with Z.lor a b).
Proof.
  intros Ha. revert b. induction Ha as [|x t Hx _ IH]; intros b Hb; simpl.
  - constructor.
  - destruct Hb as [|y u Hy Hu]; constructor.
    + apply uint64_lor; assumption.
    + apply IH. exact Hu.
Qed.

(** * What each operation computes *)

Section Runs.
Variables (h : list Filter) (l : list lockEvent) (p : ptr) (f : Filter).
Hypothesis Hf : h !! p = Some f.

Lemma run_deref_at : deref p (mkWorld h l) = Done (f, mkWorld h l).
Proof. apply run_deref. exact Hf. Qed.

Lemma run_RLock : RLock p (mkWorld h l) = Done (tt, mkWorld h (l ++ [EvRLock p])).
Proof. unfold RLock. rewrite (run_bind_Done _ _ _ _ _ run_deref_at). reflexivity. Qed.

Lemma run_RUnlock :
  RUnlock p (mkWorld h l) = Done (tt, mkWorld h (l ++ [EvRUnlock p])).
Proof. unfold RUnlock. rewrite (run_bind_Done _ _ _ _ _ run_deref_at). reflexivity. Qed.

Lemma run_Lock : Lock p (mkWorld h l) = Done (tt, mkWorld h (l ++ [EvLock p])).
Proof. unfold Lock. rewrite (run_bind_Done _ _ _ _ _ run_deref_at). reflexivity. Qed.

Lemma run_Unlock :
  Unlock p (mkWorld h l) = Done (tt, mkWorld h (l ++ [EvUnlock p])).
Proof. unfold Unlock. rewrite (run_bind_Done _ _ _ _ _ run_deref_at). reflexivity. Qed.

Lemma run_M : M p (mkWorld h l) = Done (m f, mkWorld h l).
Proof. unfold M. rewrite (run_bind_Done _ _ _ _ _ run_deref_at). reflexivity. Qed.

Lemma run_K : K p (mkWorld h l) = Done (Z.of_nat (length (keys f)), mkWorld h l).
Proof. unfold K. rewrite (run_bind_Done _ _ _ _ _ run_deref_at). reflexivity. Qed.

Lemma run_n_Load : n_Load p (mkWorld h l) = Done (n f, mkWorld h l).
Proof. unfold n_Load. rewrite (run_bind_Done _ _ _ _ _ run_deref_at). reflexivity. Qed.

Lemma run_hash v :
  hash p v (mkWorld h l) = Done (map (Z.lxor v) (keys f), mkWorld h l).
Proof. unfold hash. rewrite (run_bind_Done _ _ _ _ _ run_deref_at). reflexivity. Qed.

Lemma run_n_Add d :
  n_Add p d (mkWorld h l)
  = Done (tt, mkWorld (<[p := set_n f (wrap64 (n f + d))]> h) l).
Proof. unfold n_Add. rewrite (run_bind_Done _ _ _ _ _ run_deref_at). reflexivity. Qed.

Lemma run_n_Store v :
  n_Store p v (mkWorld h l) = Done (tt, mkWorld (<[p := set_n f v]> h) l).
Proof. unfold n_Store. rewrite (run_bind_Done _ _ _ _ _ run_deref_at). reflexivity. Qed.

Lemma run_bits_Load i x :
  0 ≤ i → bits f !! Z.to_nat i = Some x →
  bits_Load p i (mkWorld h l) = Done (x, mkWorld h l).
Proof.
  intros Hi Hx. unfold bits_Load.
  rewrite (run_bind_Done _ _ _ _ _ run_deref_at). apply run_index; assumption.
Qed.

Lemma run_bits_Or i v x :
  0 ≤ i → bits f !! Z.to_nat i = Some x →
  bits_Or p i v (mkWorld h l)
  = Done (tt, mkWorld (<[p := set_bits f (<[Z.to_nat i := Z.lor x v]> (bits f))]> h) l).
Proof.
  intros Hi Hx. unfold bits_Or.
  rewrite (run_bind_Done _ _ _ _ _ run_deref_at).
  rewrite (run_bind_Done _ _ _ _ _ (run_index _ _ _ _ Hi Hx)). reflexivity.
Qed.

Lemma run_bits_Store i v x :
  0 ≤ i → bits f !! Z.to_nat i = Some x →
  bits_Store p i v (mkWorld h l)
  = Done (tt, mkWorld (<[p := set_bits f (<[Z.to_nat i := v]> (bits f))]> h) l).
Proof.
  intros Hi Hx. unfold bits_Store.
  rewrite (run_bind_Done _ _ _ _ _ run_deref_at).
  rewrite (run_bind_Done _ _ _ _ _ (run_index _ _ _ _ Hi Hx)). reflexivity.
Qed.
End Runs.

Lemma run_rem x y w : y ≠ 0 → rem x y w = Done (x mod y, w).
Proof. intros Hy. unfold rem. destruct (Z.eqb_spec y 0); [contradiction|reflexivity]. Qed.

(** One iteration of the loops of [Add] and [AddC] on bit [i mod m]. *)
Lemma run_set_target h l p f bs i :
  h !! p = Some (set_bits f bs) → 1 ≤ m f → length bs = nwords (m f) →
  bits_Or p ((i mod m f) ≫ 6) (1 ≪ Z.land (i mod m f) 63) (mkWorld h l)
  = Done (tt, mkWorld (<[p := set_bits f (orBit bs (i mod m f))]> h) l).
Proof.
  intros Hp Hm Hl.
  assert (Hi : 0 ≤ i mod m f < m f) by (apply Z.mod_pos_bound; lia).
  destruct (target_lookup bs (m f) _ Hl Hi) as [w E].
  rewrite (run_bits_Or h l p _ Hp _ _ w); [|apply word_index_nonneg; lia|exact E].
  unfold orBit. rewrite E. reflexivity.
Qed.

Lemma run_get_target h l p f bs i :
  h !! p = Some (set_bits f bs) → 1 ≤ m f → length bs = nwords (m f) →
  ∃ w, bits_Load p ((i mod m f) ≫ 6) (mkWorld h l) = Done (w, mkWorld h l)
       ∧ Z.land (w ≫ Z.land (i mod m f) 63) 1 = Z.b2z (getBit bs (i mod m f)).
Proof.
  intros Hp Hm Hl.
  assert (Hi : 0 ≤ i mod m f < m f) by (apply Z.mod_pos_bound; lia).
  destruct (target_lookup bs (m f) _ Hl Hi) as [w E].
  exists w. split.
  - apply (run_bits_Load h l p _ Hp); [apply word_index_nonneg; lia|exact E].
  - rewrite land_shiftr_one by apply land63_nonneg.
    unfold getBit. rewrite E. reflexivity.
Qed.

Lemma insert_twice (h : list Filter) p f g : <[p := g]> (<[p := f]> h) = <[p := g]> h.
Proof. apply list_insert_insert_eq. Qed.

Lemma lookup_inserted (h : list Filter) p f g :
  h !! p = Some f → <[p := g]> h !! p = Some g.
Proof. intros H. apply list_lookup_insert_eq. eapply lookup_lt_Some. exact H. Qed.

Lemma set_bits_id f : set_bits f (bits f) = f.
Proof. destruct f. reflexivity. Qed.

Lemma Add_loop p f hs : 
  1 ≤ m f → ∀ bs h l,
  h !! p = Some (set_bits f bs) → length bs = nwords (m f) →
  range hs (λ i, fm ← M p; i ← rem i fm;
                 bits_Or p (i ≫ 6) (1 ≪ Z.land i 63)) (mkWorld h l)
  = Done (tt, mkWorld
      (<[p := set_bits f (fold_left orBit (map (λ i, i mod m f) hs) bs)]> h) l).
Proof.
  intros Hm. induction hs as [|i t IH]; intros bs h l Hp Hl; simpl.
  - rewrite list_insert_id by exact Hp. reflexivity.
  - rewrite run_bind.
    rewrite (run_bind_Done _ _ _ _ _ (run_M h l p _ Hp)).
    rewrite (run_bind_Done _ _ _ _ _ (run_rem i (m f) _ ltac:(simpl; lia))).
    simpl m. rewrite (run_set_target h l p f bs i Hp Hm Hl).
    rewrite (IH (orBit bs (i mod m f))).
    + rewrite insert_twice. reflexivity.
    + eapply lookup_inserted. exact Hp.
    + rewrite length_orBit. exact Hl.
Qed.

Lemma Contains_loop p f hs :
  1 ≤ m f → length (bits f) = nwords (m f) → ∀ r h l,
  h !! p = Some f →
  rangeVar hs (Z.b2z r) (λ r i, fm ← M p; i ← rem i fm;
       w ← bits_Load p (i ≫ 6);
       mret (Z.land r (Z.land (w ≫ Z.land i 63) 1))) (mkWorld h l)
  = Done (Z.b2z (r && forallb (getBit (bits f)) (map (λ i, i mod m f) hs)),
          mkWorld h l).
Proof.
  intros Hm Hl. induction hs as [|i t IH]; intros r h l Hp; simpl.
  - rewrite andb_true_r. reflexivity.
  - rewrite run_bind.
    rewrite (run_bind_Done _ _ _ _ _ (run_M h l p _ Hp)).
    rewrite (run_bind_Done _ _ _ _ _ (run_rem i (m f) _ ltac:(lia))).
    rewrite <- (set_bits_id f) in Hp.
    destruct (run_get_target h l p f (bits f) i Hp Hm Hl) as (w & Hw & Hb).
    rewrite (run_bind_Done _ _ _ _ _ Hw). rewrite run_ret.
    rewrite Hb, land_b2z. rewrite set_bits_id in Hp.
    rewrite IH by exact Hp. rewrite andb_assoc. reflexivity.
Qed.

Lemma AddC_loop p f hs :
  1 ≤ m f → ∀ bs r h l,
  h !! p = Some (set_bits f bs) → length bs = nwords (m f) →
  rangeVar hs (Z.b2z r) (λ r i, fm ← M p; i ← rem i fm;
       w ← bits_Load p (i ≫ 6);
       bits_Or p (i ≫ 6) (1 ≪ Z.land i 63);;
       mret (Z.land r (Z.land (w ≫ Z.land i 63) 1))) (mkWorld h l)
  = Done (Z.b2z (r && forallb (getBit bs) (map (λ i, i mod m f) hs)),
          mkWorld
            (<[p := set_bits f (fold_left orBit (map (λ i, i mod m f) hs) bs)]> h) l).
Proof.
  intros Hm. induction hs as [|i t IH]; intros bs r h l Hp Hl; simpl.
  - rewrite andb_true_r, list_insert_id by exact Hp. reflexivity.
  - rewrite run_bind.
    rewrite (run_bind_Done _ _ _ _ _ (run_M h l p _ Hp)).
    rewrite (run_bind_Done _ _ _ _ _ (run_rem i (m f) _ ltac:(simpl; lia))).
    simpl m.
    destruct (run_get_target h l p f bs i Hp Hm Hl) as (w & Hw & Hb).
    rewrite (run_bind_Done _ _ _ _ _ Hw).
    rewrite (run_bind_Done _ _ _ _ _ (run_set_target h l p f bs i Hp Hm Hl)).
    rewrite run_ret, Hb, land_b2z.
    rewrite (IH (orBit bs (i mod m f))).
    + rewrite insert_twice, <- andb_assoc, forallb_after_orBit, andb_assoc.
      reflexivity.
    + eapply lookup_inserted. exact Hp.
    + rewrite length_orBit. exact Hl.
Qed.

(** The filter after one insertion of the raw hash [v]. *)
Definition inserted (f : Filter) (v : Z) : Filter :=
  mkFilter (fold_left orBit (targets f v) (bits f)) (keys f) (m f)
           (wrap64 (n f + 1)).

Lemma Add_spec h l p f v :
  h !! p = Some f → wf f →
  Add p v (mkWorld h l)
  = Done (tt, mkWorld (<[p := inserted f v]> h) (l ++ [EvRLock p; EvRUnlock p])).
Proof.
  intros Hp [Hm Hl]. unfold Add, defer.
  rewrite (run_bind_Done _ _ _ _ _ (run_hash h l p f Hp v)).
  rewrite (run_bind_Done _ _ _ _ _ (run_RLock h l p f Hp)).
  rewrite run_bind, run_bind.
  rewrite (Add_loop p f _ Hm (bits f)); [|rewrite set_bits_id; exact Hp|exact Hl].
  erewrite run_n_Add by (eapply lookup_inserted; exact Hp).
  rewrite insert_twice.
  erewrite run_bind_Done by (eapply run_RUnlock, lookup_inserted; exact Hp).
  rewrite run_ret, <- app_assoc. reflexivity.
Qed.

Lemma AddC_spec h l p f v :
  h !! p = Some f → wf f →
  AddC p v (mkWorld h l)
  = Done (forallb (getBit (bits f)) (targets f v),
          mkWorld (<[p := inserted f v]> h) (l ++ [EvRLock p; EvRUnlock p])).
Proof.
  intros Hp [Hm Hl]. unfold AddC.
  rewrite (run_bind_Done _ _ _ _ _ (run_hash h l p f Hp v)).
  rewrite (run_bind_Done _ _ _ _ _ (run_RLock h l p f Hp)).
  rewrite (run_bind_Done _ _ _ _ _ (run_RUnlock h _ p f Hp)).
  rewrite run_bind. change 1 with (Z.b2z true) at 1.
  rewrite (AddC_loop p f _ Hm (bits f)); [|rewrite set_bits_id; exact Hp|exact Hl].
  erewrite run_bind_Done by (eapply run_n_Add, lookup_inserted; exact Hp).
  rewrite insert_twice, run_ret, uint64ToBool_b2z, <- app_assoc. reflexivity.
Qed.

Lemma Contains_spec h l p f v :
  h !! p = Some f → wf f →
  Contains p v (mkWorld h l)
  = Done (forallb (getBit (bits f)) (targets f v),
          mkWorld h (l ++ [EvRLock p; EvRUnlock p])).
Proof.
  intros Hp [Hm Hl]. unfold Contains, defer.
  rewrite (run_bind_Done _ _ _ _ _ (run_hash h l p f Hp v)).
  rewrite (run_bind_Done _ _ _ _ _ (run_RLock h l p f Hp)).
  rewrite run_bind, run_bind. change 1 with (Z.b2z true) at 1.
  rewrite (Contains_loop p f _ Hm Hl true _ _ Hp).
  rewrite run_ret.
  rewrite (run_bind_Done _ _ _ _ _ (run_RUnlock h _ p f Hp)).
  rewrite run_ret, uint64ToBool_b2z, <- app_assoc. reflexivity.
Qed.

(** An insertion writes 64-bit values only. *)
Lemma uint64_inserted f v :
  Forall uint64 (bits f) →
  Forall uint64 (bits (inserted f v)) ∧ uint64 (n (inserted f v)).
Proof.
  intros H. split.
  - simpl. generalize (targets f v). intros ix. revert H.
    generalize (bits f). induction ix as [|i t IH]; intros bs H; simpl.
    + exact H.
    + apply IH, uint64_orBit, H.
  - simpl. unfold wrap64, uint64. apply Z.mod_pos_bound. reflexivity.
Qed.

(** ** Compatibility *)

Lemma fold_lor_zero (xs : list Z) r :
  fold_left Z.lor xs r = 0 ↔ r = 0 ∧ Forall (λ x, x = 0) xs.
Proof.
  revert r. induction xs as [|x t IH]; intros r; simpl.
  - split; [intros ->; split; [reflexivity|constructor]|intros [-> _]; reflexivity].
  - rewrite IH, Z.lor_eq_0_iff. split.
    + intros [[-> ->] Ht]. split; [reflexivity|constructor; [reflexivity|exact Ht]].
    + intros [-> Hall]. inversion Hall; subst. repeat split. assumption.
Qed.

Lemma zip_lxor_zero (a b : list Z) :
  length a = length b → Forall (λ x, x = 0) (zip_with Z.lxor a b) ↔ a = b.
Proof.
  revert b. induction a as [|x t IH]; intros [|y u] Hl; simpl in *; try discriminate.
  - split; [reflexivity|constructor].
  - split.
    + intros Hall. inversion Hall as [|? ? Hx Ht]; subst.
      apply Z.lxor_eq in Hx. apply IH in Ht; [|lia]. congruence.
    + intros [= -> ->]. constructor; [apply Z.lxor_nilpotent|].
      apply IH; [lia|reflexivity].
Qed.

Lemma noBranch_loop (b1 : list Z) : ∀ (b0 : list Z) (s : nat) r w,
  (s + length b0 ≤ length b1)%nat →
  rangeVar (zip (seq s (length b0)) b0) r (λ r ib,
      b1i ← index b1 (Z.of_nat ib.1);
      mret (Z.lor r (Z.lxor ib.2 b1i))) w
  = Done (fold_left Z.lor (zip_with Z.lxor b0 (drop s b1)) r, w).
Proof.
  induction b0 as [|x t IH]; intros s r w Hs; simpl.
  - reflexivity.
  - simpl in Hs. destruct (lookup_lt_is_Some_2 b1 s ltac:(lia)) as [y Hy].
    rewrite (drop_S _ _ _ Hy). simpl.
    erewrite run_bind_Done; cycle 1.
    { erewrite run_bind_Done;
        [apply run_ret|apply run_index; [lia|rewrite Nat2Z.id; exact Hy]]. }
    apply IH. lia.
Qed.

Lemma noBranch_overrun (b1 : list Z) : ∀ (b0 : list Z) (s : nat) r w,
  (s ≤ length b1 < s + length b0)%nat →
  rangeVar (zip (seq s (length b0)) b0) r (λ r ib,
      b1i ← index b1 (Z.of_nat ib.1);
      mret (Z.lor r (Z.lxor ib.2 b1i))) w
  = Panic.
Proof.
  induction b0 as [|x t IH]; intros s r w Hs; simpl in *; [lia|].
  destruct (decide (s < length b1)%nat) as [Hlt|Hge].
  - destruct (lookup_lt_is_Some_2 b1 s Hlt) as [y Hy].
    erewrite run_bind_Done; cycle 1.
    { erewrite run_bind_Done;
        [apply run_ret|apply run_index; [lia|rewrite Nat2Z.id; exact Hy]]. }
    apply IH. lia.
  - apply run_bind_Panic, run_bind_Panic. unfold index.
    destruct (Z.ltb_spec (Z.of_nat s) 0); [reflexivity|].
    rewrite Nat2Z.id, (lookup_ge_None_2 b1 s) by lia. reflexivity.
Qed.

(** With slices of one length the comparison returns 0 exactly on equal
    slices. *)
Lemma run_noBranchCompareUint64s b0 b1 w :
  length b0 = length b1 →
  ∃ r, noBranchCompareUint64s b0 b1 w = Done (r, w) ∧ (r = 0 ↔ b0 = b1).
Proof.
  intros Hl. eexists. split.
  - unfold noBranchCompareUint64s, indexed. apply noBranch_loop. simpl. lia.
  - rewrite drop_0, fold_lor_zero, zip_lxor_zero by exact Hl. tauto.
Qed.

(** The second slice is indexed at every position of the first. *)
Lemma noBranchCompareUint64s_short b0 b1 w :
  (length b1 < length b0)%nat → noBranchCompareUint64s b0 b1 w = Panic.
Proof.
  intros Hl. unfold noBranchCompareUint64s, indexed.
  apply noBranch_overrun. lia.
Qed.

Lemma noBranchCompareUint64s_long b0 b1 w :
  (length b0 ≤ length b1)%nat →
  ∃ r, noBranchCompareUint64s b0 b1 w = Done (r, w).
Proof.
  intros Hl. eexists. unfold noBranchCompareUint64s, indexed.
  apply noBranch_loop. simpl. lia.
Qed.

(** Same size and same key sequence. *)
Definition compatible (f f2 : Filter) : bool :=
  bool_decide (m f = m f2 ∧ keys f = keys f2).

Lemma isCompatible_spec h l p q f f2 :
  h !! p = Some f → h !! q = Some f2 →
  isCompatible p q (mkWorld h l) = Done (compatible f f2, mkWorld h l).
Proof.
  intros Hp Hq. unfold isCompatible.
  rewrite (run_bind_Done _ _ _ _ _ (run_M h l p f Hp)).
  rewrite (run_bind_Done _ _ _ _ _ (run_M h l q f2 Hq)).
  destruct (Z.eqb_spec (m f) (m f2)) as [Hm|Hm]; simpl.
  2:{ rewrite run_ret. unfold compatible.
      rewrite bool_decide_eq_false_2 by tauto. reflexivity. }
  rewrite (run_bind_Done _ _ _ _ _ (run_K h l p f Hp)).
  rewrite (run_bind_Done _ _ _ _ _ (run_K h l q f2 Hq)).
  destruct (Z.eqb_spec (Z.of_nat (length (keys f))) (Z.of_nat (length (keys f2))))
    as [Hk|Hk]; simpl.
  2:{ rewrite run_ret. unfold compatible.
      rewrite bool_decide_eq_false_2; [reflexivity|]. intros [_ E].
      apply Hk. rewrite E. reflexivity. }
  rewrite (run_bind_Done _ _ _ _ _ (run_deref_at h l p f Hp)).
  rewrite (run_bind_Done _ _ _ _ _ (run_deref_at h l q f2 Hq)).
  destruct (run_noBranchCompareUint64s (keys f) (keys f2) (mkWorld h l)
              ltac:(lia)) as (r & Hr & Hz).
  rewrite (run_bind_Done _ _ _ _ _ Hr), run_ret. f_equal. f_equal.
  unfold compatible. destruct (Z.eqb_spec r 0) as [E|E].
  - symmetry. apply bool_decide_eq_true_2. split; [exact Hm|]. apply Hz, E.
  - symmetry. apply bool_decide_eq_false_2. intros [_ E']. apply E, Hz, E'.
Qed.

Lemma IsCompatible_spec h l p q f f2 :
  h !! p = Some f → h !! q = Some f2 →
  IsCompatible p q (mkWorld h l)
  = Done (compatible f f2,
          mkWorld h (l ++ [EvRLock p; EvRLock q; EvRUnlock q; EvRUnlock p])).
Proof.
  intros Hp Hq. unfold IsCompatible, defer.
  rewrite (run_bind_Done _ _ _ _ _ (run_RLock h l p f Hp)).
  rewrite run_bind, (run_bind_Done _ _ _ _ _ (run_RLock h _ q f2 Hq)).
  rewrite run_bind, (isCompatible_spec h _ p q f f2 Hp Hq).
  rewrite (run_bind_Done _ _ _ _ _ (run_RUnlock h _ q f2 Hq)), run_ret.
  rewrite (run_bind_Done _ _ _ _ _ (run_RUnlock h _ p f Hp)), run_ret.
  repeat rewrite <- app_assoc. reflexivity.
Qed.

(** The three slots that [verifyCompatible] fills for two filters. *)
Definition diagnostic (f f2 : Filter) : list string :=
  let k1 := Z.of_nat (length (keys f)) in
  let k2 := Z.of_nat (length (keys f2)) in
  [ if negb (m f =? m f2) then Sprintf_and "M" k1 k2 else "";
    if negb (k1 =? k2) then Sprintf_and "K" k1 k2 else "";
    if negb (fold_left Z.lor (zip_with Z.lxor (keys f) (keys f2)) 0 =? 0)
    then "Mismatched Keys" else "" ].

Definition verify_events (p q : ptr) : list lockEvent :=
  [EvRLock p; EvRLock q; EvRUnlock q; EvRUnlock p].

Lemma verifyCompatible_nil h l p q f f2 :
  h !! p = Some f → h !! q = Some f2 → compatible f f2 = true →
  verifyCompatible p q (mkWorld h l)
  = Done (None, mkWorld h (l ++ verify_events p q)).
Proof.
  intros Hp Hq Hc. unfold verifyCompatible, defer.
  rewrite (run_bind_Done _ _ _ _ _ (run_RLock h l p f Hp)).
  rewrite run_bind, (run_bind_Done _ _ _ _ _ (run_RLock h _ q f2 Hq)).
  rewrite run_bind, run_bind, (isCompatible_spec h _ p q f f2 Hp Hq), Hc.
  simpl bool_decide. rewrite run_ret.
  rewrite (run_bind_Done _ _ _ _ _ (run_RUnlock h _ q f2 Hq)), run_ret.
  rewrite (run_bind_Done _ _ _ _ _ (run_RUnlock h _ p f Hp)), run_ret.
  repeat rewrite <- app_assoc. reflexivity.
Qed.

Lemma verifyCompatible_error h l p q f f2 :
  h !! p = Some f → h !! q = Some f2 → compatible f f2 = false →
  (length (keys f) ≤ length (keys f2))%nat →
  verifyCompatible p q (mkWorld h l)
  = Done (Some (errIncompatible (diagnostic f f2)),
          mkWorld h (l ++ verify_events p q)).
Proof.
  intros Hp Hq Hc Hlen. unfold verifyCompatible, defer.
  rewrite (run_bind_Done _ _ _ _ _ (run_RLock h l p f Hp)).
  rewrite run_bind, (run_bind_Done _ _ _ _ _ (run_RLock h _ q f2 Hq)).
  rewrite run_bind, run_bind, (isCompatible_spec h _ p q f f2 Hp Hq), Hc.
  rewrite (run_bind_Done _ _ _ _ _ (run_M h _ p f Hp)).
  rewrite (run_bind_Done _ _ _ _ _ (run_M h _ q f2 Hq)).
  rewrite (run_bind_Done _ _ _ _ _ (run_K h _ p f Hp)).
  rewrite (run_bind_Done _ _ _ _ _ (run_K h _ q f2 Hq)).
  rewrite (run_bind_Done _ _ _ _ _ (run_deref_at h _ p f Hp)).
  rewrite (run_bind_Done _ _ _ _ _ (run_deref_at h _ q f2 Hq)).
  unfold noBranchCompareUint64s, indexed.
  rewrite (run_bind_Done _ _ _ _ _
             (noBranch_loop (keys f2) (keys f) 0 0 _ ltac:(simpl; lia))).
  rewrite drop_0, run_ret.
  rewrite (run_bind_Done _ _ _ _ _ (run_RUnlock h _ q f2 Hq)), run_ret.
  rewrite (run_bind_Done _ _ _ _ _ (run_RUnlock h _ p f Hp)), run_ret.
  repeat rewrite <- app_assoc. reflexivity.
Qed.

(** With fewer keys in the second filter, the key comparison of
    [verifyCompatible] runs past the end of the second key slice. *)
Lemma verifyCompatible_panic h l p q f f2 :
  h !! p = Some f → h !! q = Some f2 →
  (length (keys f2) < length (keys f))%nat →
  verifyCompatible p q (mkWorld h l) = Panic.
Proof.
  intros Hp Hq Hlen.
  assert (Hc : compatible f f2 = false).
  { apply bool_decide_eq_false_2. intros [_ E]. rewrite E in Hlen. lia. }
  unfold verifyCompatible, defer.
  rewrite (run_bind_Done _ _ _ _ _ (run_RLock h l p f Hp)).
  rewrite run_bind, (run_bind_Done _ _ _ _ _ (run_RLock h _ q f2 Hq)).
  rewrite run_bind, run_bind, (isCompatible_spec h _ p q f f2 Hp Hq), Hc.
  rewrite (run_bind_Done _ _ _ _ _ (run_M h _ p f Hp)).
  rewrite (run_bind_Done _ _ _ _ _ (run_M h _ q f2 Hq)).
  rewrite (run_bind_Done _ _ _ _ _ (run_K h _ p f Hp)).
  rewrite (run_bind_Done _ _ _ _ _ (run_K h _ q f2 Hq)).
  rewrite (run_bind_Done _ _ _ _ _ (run_deref_at h _ p f Hp)).
  rewrite (run_bind_Done _ _ _ _ _ (run_deref_at h _ q f2 Hq)).
  rewrite (run_bind_Panic _ _ _ (noBranchCompareUint64s_short _ _ _ Hlen)).
  reflexivity.
Qed.

(** ** Unions *)

Lemma zip_lor_diag (b : list Z) : zip_with Z.lor b b = b.
Proof. induction b as [|x t IH]; simpl; [reflexivity|]. rewrite Z.lor_diag, IH. reflexivity. Qed.

(** The loop of [UnionInPlace] from word [s] on.  The second filter may
    be the first one: its words from [s] on are still those of [b2]. *)
Lemma UnionInPlace_loop l p q f (b2 : list Z) : ∀ cnt s bs h g,
  h !! p = Some (set_bits f bs) → h !! q = Some g →
  (∀ i, (s ≤ i)%nat → bits g !! i = b2 !! i) →
  (s + cnt)%nat = length b2 → length bs = length b2 →
  range (seq s cnt) (λ i,
      word ← bits_Load q (Z.of_nat i);
      bits_Or p (Z.of_nat i) word) (mkWorld h l)
  = Done (tt, mkWorld
      (<[p := set_bits f (take s bs ++ zip_with Z.lor (drop s bs) (drop s b2))]> h) l).
Proof.
  induction cnt as [|cnt IH]; intros s bs h g Hp Hq Hg Hs Hl; simpl.
  - rewrite (drop_ge bs), app_nil_r, take_ge by lia.
    rewrite list_insert_id by exact Hp. reflexivity.
  - destruct (lookup_lt_is_Some_2 b2 s ltac:(lia)) as [y Hy].
    destruct (lookup_lt_is_Some_2 bs s ltac:(lia)) as [x Hx].
    rewrite run_bind.
    erewrite (run_bind_Done (bits_Load q _)); cycle 1.
    { eapply (run_bits_Load h l q g Hq); [lia|].
      rewrite Nat2Z.id, Hg by lia. exact Hy. }
    erewrite (run_bits_Or h l p _ Hp); [|lia|rewrite Nat2Z.id; exact Hx].
    rewrite Nat2Z.id. simpl set_bits.
    assert (Hq' : ∃ g', <[p := set_bits f (<[s := Z.lor x y]> bs)]> h !! q = Some g'
                        ∧ ∀ i, (S s ≤ i)%nat → bits g' !! i = b2 !! i).
    { destruct (decide (p = q)) as [<-|Hne].
      - eexists. split; [eapply lookup_inserted; exact Hp|].
        intros i Hi. simpl. rewrite list_lookup_insert_ne by lia.
        rewrite <- Hg by lia. rewrite Hp in Hq. inversion Hq. reflexivity.
      - exists g. rewrite list_lookup_insert_ne by exact Hne.
        split; [exact Hq|]. intros i Hi. apply Hg. lia. }
    destruct Hq' as (g' & Hq' & Hg').
    rewrite (IH (S s) (<[s := Z.lor x y]> bs) _ g').
    + rewrite insert_twice. f_equal. f_equal. f_equal. f_equal.
      rewrite (take_S_r _ _ (Z.lor x y))
        by (apply list_lookup_insert_eq; eapply lookup_lt_Some; exact Hx).
      rewrite take_insert_ge, drop_insert_lt by lia.
      rewrite (drop_S bs _ _ Hx), (drop_S b2 _ _ Hy). simpl.
      rewrite <- app_assoc. reflexivity.
    + eapply lookup_inserted. exact Hp.
    + exact Hq'.
    + exact Hg'.
    + lia.
    + rewrite length_insert. exact Hl.
Qed.

Definition union_events (p q : ptr) : list lockEvent :=
  [EvRLock p; EvRLock q; EvRLock p; EvRLock q;
   EvRUnlock q; EvRUnlock p; EvRUnlock q; EvRUnlock p].

Lemma UnionInPlace_spec h l p q f f2 :
  h !! p = Some f → h !! q = Some f2 → compatible f f2 = true →
  length (bits f) = length (bits f2) →
  UnionInPlace p q (mkWorld h l)
  = Done (None,
          mkWorld (<[p := set_bits f (zip_with Z.lor (bits f) (bits f2))]> h)
                  (l ++ union_events p q)).
Proof.
  intros Hp Hq Hc Hl. unfold UnionInPlace, defer.
  rewrite (run_bind_Done _ _ _ _ _ (run_RLock h l p f Hp)).
  rewrite run_bind, (run_bind_Done _ _ _ _ _ (run_RLock h _ q f2 Hq)).
  rewrite run_bind, run_bind, (verifyCompatible_nil h _ p q f f2 Hp Hq Hc).
  rewrite (run_bind_Done _ _ _ _ _ (run_deref_at h _ q f2 Hq)).
  rewrite run_bind.
  rewrite (UnionInPlace_loop _ p q f (bits f2) _ 0 (bits f) h f2);
    [|rewrite set_bits_id; exact Hp|exact Hq|reflexivity|reflexivity|exact Hl].
  rewrite take_0, !drop_0, run_ret. simpl app at 1.
  assert (Hp' := lookup_inserted h p f
            (set_bits f (zip_with Z.lor (bits f) (bits f2))) Hp).
  assert (Hq' : ∃ g, <[p := set_bits f (zip_with Z.lor (bits f) (bits f2))]> h
                       !! q = Some g).
  { apply lookup_lt_is_Some_2. rewrite length_insert.
    eapply lookup_lt_Some. exact Hq. }
  destruct Hq' as [g Hq'].
  rewrite (run_bind_Done _ _ _ _ _ (run_RUnlock _ _ q g Hq')), run_ret.
  rewrite (run_bind_Done _ _ _ _ _ (run_RUnlock _ _ p _ Hp')), run_ret.
  unfold verify_events, union_events. repeat rewrite <- app_assoc. reflexivity.
Qed.

Lemma UnionInPlace_error h l p q f f2 :
  h !! p = Some f → h !! q = Some f2 → compatible f f2 = false →
  (length (keys f) ≤ length (keys f2))%nat →
  UnionInPlace p q (mkWorld h l)
  = Done (Some (errIncompatible (diagnostic f f2)),
          mkWorld h (l ++ union_events p q)).
Proof.
  intros Hp Hq Hc Hl. unfold UnionInPlace, defer.
  rewrite (run_bind_Done _ _ _ _ _ (run_RLock h l p f Hp)).
  rewrite run_bind, (run_bind_Done _ _ _ _ _ (run_RLock h _ q f2 Hq)).
  rewrite run_bind, run_bind, (verifyCompatible_error h _ p q f f2 Hp Hq Hc Hl).
  rewrite run_ret.
  rewrite (run_bind_Done _ _ _ _ _ (run_RUnlock _ _ q f2 Hq)), run_ret.
  rewrite (run_bind_Done _ _ _ _ _ (run_RUnlock _ _ p f Hp)), run_ret.
  unfold verify_events, union_events. repeat rewrite <- app_assoc. reflexivity.
Qed.

Lemma UnionInPlace_panic h l p q f f2 :
  h !! p = Some f → h !! q = Some f2 →
  (length (keys f2) < length (keys f))%nat →
  UnionInPlace p q (mkWorld h l) = Panic.
Proof.
  intros Hp Hq Hl. unfold UnionInPlace, defer.
  rewrite (run_bind_Done _ _ _ _ _ (run_RLock h l p f Hp)).
  rewrite run_bind, (run_bind_Done _ _ _ _ _ (run_RLock h _ q f2 Hq)).
  rewrite run_bind, run_bind, (verifyCompatible_panic h _ p q f f2 Hp Hq Hl).
  reflexivity.
Qed.

(** The loop of [Union] from word [s] on; [out] is neither operand. *)
Lemma Union_loop l p q out f f2 g : ∀ cnt s bs h,
  h !! p = Some f → h !! q = Some f2 → h !! out = Some (set_bits g bs) →
  out ≠ p → out ≠ q →
  (s + cnt)%nat = length (bits f2) → length bs = length (bits f2) →
  length (bits f) = length (bits f2) →
  range (seq s cnt) (λ i,
      word ← bits_Load q (Z.of_nat i);
      a ← bits_Load p (Z.of_nat i);
      bits_Store out (Z.of_nat i) (Z.lor a word)) (mkWorld h l)
  = Done (tt, mkWorld
      (<[out := set_bits g
                  (take s bs ++ zip_with Z.lor (drop s (bits f)) (drop s (bits f2)))]> h) l).
Proof.
  induction cnt as [|cnt IH]; intros s bs h Hp Hq Ho Hop Hoq Hs Hl Hl1; simpl.
  - rewrite (drop_ge (bits f)), app_nil_r, take_ge by lia.
    rewrite list_insert_id by exact Ho. reflexivity.
  - destruct (lookup_lt_is_Some_2 (bits f2) s ltac:(lia)) as [y Hy].
    destruct (lookup_lt_is_Some_2 (bits f) s ltac:(lia)) as [x Hx].
    destruct (lookup_lt_is_Some_2 bs s ltac:(lia)) as [z Hz].
    rewrite run_bind.
    erewrite (run_bind_Done (bits_Load q _)); cycle 1.
    { eapply (run_bits_Load h l q f2 Hq); [lia|]. rewrite Nat2Z.id. exact Hy. }
    erewrite (run_bind_Done (bits_Load p _)); cycle 1.
    { eapply (run_bits_Load h l p f Hp); [lia|]. rewrite Nat2Z.id. exact Hx. }
    erewrite (run_bits_Store h l out _ Ho); [|lia|rewrite Nat2Z.id; exact Hz].
    rewrite Nat2Z.id. simpl set_bits.
    rewrite (IH (S s) (<[s := Z.lor x y]> bs)).
    + rewrite insert_twice. f_equal. f_equal. f_equal. f_equal.
      rewrite (take_S_r _ _ (Z.lor x y))
        by (apply list_lookup_insert_eq; eapply lookup_lt_Some; exact Hz).
      rewrite take_insert_ge by lia.
      rewrite (drop_S (bits f) _ _ Hx), (drop_S (bits f2) _ _ Hy). simpl.
      rewrite <- app_assoc. reflexivity.
    + rewrite list_lookup_insert_ne by exact Hop. exact Hp.
    + rewrite list_lookup_insert_ne by exact Hoq. exact Hq.
    + eapply lookup_inserted. exact Ho.
    + exact Hop.
    + exact Hoq.
    + lia.
    + rewrite length_insert. exact Hl.
    + exact Hl1.
Qed.

Lemma run_NewCompatible h l p f :
  h !! p = Some f →
  NewCompatible p (mkWorld h l)
  = Done (Ok (length h), mkWorld (h ++ [sibling f]) l).
Proof.
  intros Hp. unfold NewCompatible.
  rewrite (run_bind_Done _ _ _ _ _ (run_deref_at h l p f Hp)). reflexivity.
Qed.

(** The filter that [Union] returns. *)
Definition united (f f2 : Filter) : Filter :=
  mkFilter (zip_with Z.lor (bits f) (bits f2)) (keys f) (m f) 0.

Lemma Union_spec h l p q f f2 :
  h !! p = Some f → h !! q = Some f2 → compatible f f2 = true →
  length (bits f) = nwords (m f) → length (bits f2) = nwords (m f2) →
  Union p q (mkWorld h l)
  = Done (Ok (length h),
          mkWorld (h ++ [united f f2]) (l ++ union_events p q)).
Proof.
  intros Hp Hq Hc Hl1 Hl2.
  assert (Hm : m f = m f2).
  { apply bool_decide_eq_true_1 in Hc. tauto. }
  assert (Hlt1 := lookup_lt_Some _ _ _ Hp).
  assert (Hlt2 := lookup_lt_Some _ _ _ Hq).
  unfold Union, defer.
  rewrite (run_bind_Done _ _ _ _ _ (run_RLock h l p f Hp)).
  rewrite run_bind, (run_bind_Done _ _ _ _ _ (run_RLock h _ q f2 Hq)).
  rewrite run_bind, run_bind, (verifyCompatible_nil h _ p q f f2 Hp Hq Hc).
  rewrite (run_bind_Done _ _ _ _ _ (run_NewCompatible h _ p f Hp)).
  assert (Hp' : (h ++ [sibling f]) !! p = Some f)
    by (apply lookup_app_l_Some; exact Hp).
  assert (Hq' : (h ++ [sibling f]) !! q = Some f2)
    by (apply lookup_app_l_Some; exact Hq).
  assert (Ho : (h ++ [sibling f]) !! length h
               = Some (set_bits (sibling f) (replicate (nwords (m f)) 0)))
    by (apply list_lookup_middle; reflexivity).
  rewrite (run_bind_Done _ _ _ _ _ (run_deref_at _ _ q f2 Hq')).
  rewrite run_bind.
  rewrite (Union_loop _ p q (length h) f f2 (sibling f) _ 0 _ _ Hp' Hq' Ho);
    [|lia|lia|reflexivity|rewrite length_replicate; congruence|congruence].
  rewrite take_0, !drop_0, run_ret. simpl app at 1.
  replace (<[length h := set_bits (sibling f) (zip_with Z.lor (bits f) (bits f2))]>
             (h ++ [sibling f]))
    with (h ++ [united f f2]).
  2:{ rewrite insert_app_r_alt, Nat.sub_diag by lia. reflexivity. }
  assert (Hp'' : (h ++ [united f f2]) !! p = Some f)
    by (apply lookup_app_l_Some; exact Hp).
  assert (Hq'' : (h ++ [united f f2]) !! q = Some f2)
    by (apply lookup_app_l_Some; exact Hq).
  rewrite (run_bind_Done _ _ _ _ _ (run_RUnlock _ _ q f2 Hq'')), run_ret.
  rewrite (run_bind_Done _ _ _ _ _ (run_RUnlock _ _ p f Hp'')), run_ret.
  unfold verify_events, union_events. repeat rewrite <- app_assoc. reflexivity.
Qed.

Lemma Union_error h l p q f f2 :
  h !! p = Some f → h !! q = Some f2 → compatible f f2 = false →
  (length (keys f) ≤ length (keys f2))%nat →
  Union p q (mkWorld h l)
  = Done (Err (errIncompatible (diagnostic f f2)),
          mkWorld h (l ++ union_events p q)).
Proof.
  intros Hp Hq Hc Hl. unfold Union, defer.
  rewrite (run_bind_Done _ _ _ _ _ (run_RLock h l p f Hp)).
  rewrite run_bind, (run_bind_Done _ _ _ _ _ (run_RLock h _ q f2 Hq)).
  rewrite run_bind, run_bind, (verifyCompatible_error h _ p q f f2 Hp Hq Hc Hl).
  rewrite run_ret.
  rewrite (run_bind_Done _ _ _ _ _ (run_RUnlock _ _ q f2 Hq)), run_ret.
  rewrite (run_bind_Done _ _ _ _ _ (run_RUnlock _ _ p f Hp)), run_ret.
  unfold verify_events, union_events. repeat rewrite <- app_assoc. reflexivity.
Qed.

Lemma Union_panic h l p q f f2 :
  h !! p = Some f → h !! q = Some f2 →
  (length (keys f2) < length (keys f))%nat →
  Union p q (mkWorld h l) = Panic.
Proof.
  intros Hp Hq Hl. unfold Union, defer.
  rewrite (run_bind_Done _ _ _ _ _ (run_RLock h l p f Hp)).
  rewrite run_bind, (run_bind_Done _ _ _ _ _ (run_RLock h _ q f2 Hq)).
  rewrite run_bind, run_bind, (verifyCompatible_panic h _ p q f f2 Hp Hq Hl).
  reflexivity.
Qed.

(** ** Sequences of calls on the exported operations *)

Inductive call : Type :=
| CallAdd (p : ptr) (v : Z)
| CallAddC (p : ptr) (v : Z)
| CallContains (p : ptr) (v : Z)
| CallIsCompatible (p q : ptr)
| CallCopy (p : ptr)
| CallUnionInPlace (p q : ptr)
| CallUnion (p q : ptr).

Definition exec (c : call) : Go unit :=
  match c with
  | CallAdd p v => Add p v
  | CallAddC p v => AddC p v;; mret tt
  | CallContains p v => Contains p v;; mret tt
  | CallIsCompatible p q => IsCompatible p q;; mret tt
  | CallCopy p => Copy p;; mret tt
  | CallUnionInPlace p q => UnionInPlace p q;; mret tt
  | CallUnion p q => Union p q;; mret tt
  end.

Definition execs (cs : list call) : Go unit := range cs exec.

Lemma stable_exec k c : stable k (exec c).
Proof.
  destruct c; simpl;
    first [apply stable_Add | apply stable_bind; [|intros; apply stable_ret]].
  - apply stable_AddC.
  - apply stable_Contains.
  - apply stable_IsCompatible.
  - apply stable_Copy.
  - apply stable_UnionInPlace.
  - apply stable_Union.
Qed.

Lemma stable_execs k cs : stable k (execs cs).
Proof. apply stable_range. intros c. apply stable_exec. Qed.

(** Every filter of the store is kept by a run of calls that returns. *)
Lemma execs_kept cs w w' p f :
  execs cs w = Done (tt, w') → heap w !! p = Some f →
  ∃ f', heap w' !! p = Some f' ∧ kept f f'.
Proof.
  intros Hrun Hp.
  destruct (stable_execs (length (heap w)) cs w tt w' Hrun) as [_ Hb]; [lia|].
  apply (Hb p f); [|exact Hp]. eapply lookup_lt_Some. exact Hp.
Qed.

Lemma kept_wf f f' : kept f f' → wf f → wf f'.
Proof.
  intros (Hm & _ & Hb) [H1 H2]. split.
  - rewrite Hm. exact H1.
  - rewrite Hm, <- H2. symmetry. eapply Forall2_length. exact Hb.
Qed.

Lemma kept_targets f f' v : kept f f' → targets f' v = targets f v.
Proof. intros (Hm & Hk & _). unfold targets. rewrite Hm, Hk. reflexivity. Qed.

Lemma inserted_targets_set f v :
  wf f → forallb (getBit (bits (inserted f v))) (targets f v) = true.
Proof.
  intros [Hm Hl]. simpl.
  apply (fold_orBit_targets _ _ (m f)); [exact Hl|apply targets_range; exact Hm].
Qed.

Lemma forallb_getBit_sub bs bs' ix :
  Forall2 word_sub bs bs' →
  forallb (getBit bs) ix = true → forallb (getBit bs') ix = true.
Proof.
  intros Hs H. apply forallb_forall. intros i Hi.
  eapply getBit_sub; [exact Hs|].
  eapply forallb_forall in H; [exact H|exact Hi].
Qed.

Lemma world_eta w : w = mkWorld (heap w) (log w).
Proof. destruct w. reflexivity. Qed.

(** A run on the two filters of [two], and the world it ends in. *)
Definition some_calls : list call :=
  [CallAddC 0%nat 5; CallContains 0%nat 9; CallAdd 1%nat 3;
   CallUnionInPlace 0%nat 1%nat; CallCopy 1%nat; CallAdd 0%nat 0].

Definition after_calls : world :=
  match execs some_calls two with
  | Done (_, w') => w'
  | Panic => two
  end.

(** * The properties of the specification *)

(** C1 — No false negatives.  On a filter that satisfies the construction
    invariants, [Add] of a raw hash [v] returns, and after any sequence
    of further calls that returns (on this filter or on others: [Add],
    [AddC], [Contains], [IsCompatible], [Copy], [UnionInPlace], [Union]),
    [Contains] of the same hash on the same filter returns true. *)
Theorem no_false_negatives (w : world) (p : ptr) (f : Filter) (v : Z) :
  heap w !! p = Some f → wf f →
  ∃ w1, Add p v w = Done (tt, w1)
        ∧ ∀ cs w2, execs cs w1 = Done (tt, w2) →
                   ∃ w3, Contains p v w2 = Done (true, w3).
Proof.
  intros Hp Hwf. rewrite (world_eta w). eexists. split.
  - apply Add_spec; eassumption.
  - intros cs w2 Hrun.
    destruct (execs_kept cs _ w2 p (inserted f v) Hrun) as (f' & Hp' & Hk).
    { simpl. eapply lookup_inserted. exact Hp. }
    assert (Hwf' : wf f').
    { eapply kept_wf; [exact Hk|]. destruct Hwf as [H1 H2]. split; [exact H1|].
      simpl. rewrite length_fold_orBit. exact H2. }
    rewrite (world_eta w2). eexists.
    rewrite (Contains_spec _ _ p f' v Hp' Hwf'). f_equal. f_equal.
    rewrite (kept_targets _ _ v Hk).
    change (targets (inserted f v) v) with (targets f v).
    eapply forallb_getBit_sub; [apply Hk|]. apply inserted_targets_set, Hwf.
Qed.

Lemma no_false_negatives_witness :
  ∃ w1, Add 0%nat 5 two = Done (tt, w1)
        ∧ ∀ cs w2, execs cs w1 = Done (tt, w2) →
                   ∃ w3, Contains 0%nat 5 w2 = Done (true, w3).
Proof.
  apply (no_false_negatives two 0%nat (mkFilter [16] [1] 64 1) 5).
  - reflexivity.
  - split; [simpl; lia|reflexivity].
Defined.

(** C10 — Bit monotonicity.  Whenever a sequence of calls on the exported
    operations returns, every filter that existed before is still in the
    store with the same size, the same keys and a word array of the same
    length in which every bit that was set is still set. *)
Theorem bits_only_grow (cs : list call) (w w' : world) (p : ptr) (f : Filter) :
  execs cs w = Done (tt, w') → heap w !! p = Some f →
  ∃ f', heap w' !! p = Some f'
        ∧ m f' = m f ∧ keys f' = keys f
        ∧ length (bits f') = length (bits f)
        ∧ ∀ i x x', bits f !! i = Some x → bits f' !! i = Some x' →
                    ∀ j, Z.testbit x j = true → Z.testbit x' j = true.
Proof.
  intros Hrun Hp.
  destruct (execs_kept cs w w' p f Hrun Hp) as (f' & Hp' & Hm & Hk & Hb).
  exists f'. repeat split; try assumption.
  - symmetry. eapply Forall2_length. exact Hb.
  - intros i x x' Hx Hx'.
    destruct (Forall2_lookup_l _ _ _ _ _ Hb Hx) as (y & Hy & Hs).
    rewrite Hx' in Hy. inversion Hy; subst. exact Hs.
Qed.

Lemma bits_only_grow_witness :
  ∃ f', heap after_calls !! 0%nat = Some f'
        ∧ m f' = 64 ∧ keys f' = [1]
        ∧ length (bits f') = 1%nat
        ∧ ∀ i x x', [16] !! i = Some x → bits f' !! i = Some x' →
                    ∀ j, Z.testbit x j = true → Z.testbit x' j = true.
Proof.
  apply (bits_only_grow some_calls two after_calls 0%nat (mkFilter [16] [1] 64 1)).
  - vm_compute. reflexivity.
  - reflexivity.
Defined.

(** C8 — No out-of-range access.  Under the construction invariants
    [m >= 1] and [len(bits) = ceil(m/64)], for every raw hash each target
    index is reduced below [m] and its word index [(i mod m) >> 6] is within
    the word array; [Add], [AddC] and [Contains] return without a panic. *)
Theorem index_in_bounds (w : world) (p : ptr) (f : Filter) (v : Z) :
  heap w !! p = Some f → 1 ≤ m f → length (bits f) = nwords (m f) →
  Forall (λ i, 0 ≤ i < m f ∧ (Z.to_nat (i ≫ 6) < length (bits f))%nat)
         (targets f v)
  ∧ (∃ w1, Add p v w = Done (tt, w1))
  ∧ (∃ b w2, AddC p v w = Done (b, w2))
  ∧ (∃ b w3, Contains p v w = Done (b, w3)).
Proof.
  intros Hp Hm Hl. assert (Hwf : wf f) by (split; assumption).
  split; [|rewrite (world_eta w); split; [|split]].
  - eapply Forall_impl; [apply targets_range; exact Hm|].
    intros i Hi. simpl in Hi. split; [exact Hi|].
    rewrite Hl. apply word_index_lt. exact Hi.
  - eexists. apply Add_spec; eassumption.
  - eexists. eexists. apply AddC_spec; eassumption.
  - eexists. eexists. apply Contains_spec; eassumption.
Qed.

Lemma index_in_bounds_witness :
  Forall (λ i, 0 ≤ i < 130 ∧ (Z.to_nat (i ≫ 6) < 3)%nat)
         (targets (mkFilter [0; 0; 0] [1; 18446744073709551615] 130 0)
                  18446744073709551615)
  ∧ (∃ w1, Add 0%nat 18446744073709551615
             (mkWorld [mkFilter [0; 0; 0] [1; 18446744073709551615] 130 0] [])
           = Done (tt, w1))
  ∧ (∃ b w2, AddC 0%nat 18446744073709551615
               (mkWorld [mkFilter [0; 0; 0] [1; 18446744073709551615] 130 0] [])
             = Done (b, w2))
  ∧ (∃ b w3, Contains 0%nat 18446744073709551615
               (mkWorld [mkFilter [0; 0; 0] [1; 18446744073709551615] 130 0] [])
             = Done (b, w3)).
Proof.
  apply (index_in_bounds
           (mkWorld [mkFilter [0; 0; 0] [1; 18446744073709551615] 130 0] [])
           0%nat (mkFilter [0; 0; 0] [1; 18446744073709551615] 130 0)
           18446744073709551615).
  - reflexivity.
  - simpl. lia.
  - reflexivity.
Defined.

(** C7 — [AddC].  On a filter that satisfies the construction invariants
    [AddC] returns; it increments [n] by one (as a [uint64], so modulo
    [2^64]); its result is true exactly when every target bit
    [(v XOR key_i) mod m] was set before the call; on a filter whose words
    are all zero and that has at least one key the result is false. *)
Theorem AddC_correct (w : world) (p : ptr) (f : Filter) (v : Z) :
  heap w !! p = Some f → wf f →
  ∃ b w' f',
    AddC p v w = Done (b, w')
    ∧ heap w' !! p = Some f'
    ∧ n f' = (n f + 1) mod 2 ^ 64
    ∧ (0 ≤ n f < 2 ^ 64 - 1 → n f' = n f + 1)
    ∧ (b = true ↔ Forall (λ i, getBit (bits f) i = true) (targets f v))
    ∧ (Forall (λ x, x = 0) (bits f) → keys f ≠ [] → b = false).
Proof.
  intros Hp Hwf. rewrite (world_eta w).
  exists (forallb (getBit (bits f)) (targets f v)). eexists. exists (inserted f v).
  split; [apply AddC_spec; eassumption|].
  split; [simpl; eapply lookup_inserted; exact Hp|].
  split; [reflexivity|].
  split; [intros Hn; simpl; unfold wrap64; apply Z.mod_small; lia|].
  split.
  - rewrite forallb_forall, Forall_forall. split.
    + intros H i Hi. apply H, list_elem_of_In, Hi.
    + intros H i Hi. apply H, list_elem_of_In, Hi.
  - intros Hz Hk. destruct (keys f) as [|key ks] eqn:E; [contradiction|].
    unfold targets. rewrite E. simpl. apply andb_false_intro1.
    unfold getBit.
    destruct (bits f !! Z.to_nat ((Z.lxor v key mod m f) ≫ 6)) as [x|] eqn:Ex;
      [|reflexivity].
    rewrite Forall_forall in Hz.
    rewrite (Hz x) by (eapply list_elem_of_lookup_2; exact Ex).
    apply Z.bits_0.
Qed.

Lemma AddC_correct_witness :
  ∃ b w' f',
    AddC 0%nat 5 demo = Done (b, w')
    ∧ heap w' !! 0%nat = Some f'
    ∧ n f' = (0 + 1) mod 2 ^ 64
    ∧ (0 ≤ 0 < 2 ^ 64 - 1 → n f' = 0 + 1)
    ∧ (b = true ↔ Forall (λ i, getBit [0] i = true)
                         (targets (mkFilter [0] [1] 64 0) 5))
    ∧ (Forall (λ x, x = 0) [0] → [1] ≠ [] → b = false).
Proof.
  apply (AddC_correct demo 0%nat (mkFilter [0] [1] 64 0) 5).
  - reflexivity.
  - split; [simpl; lia|reflexivity].
Defined.

(** C6 — [IsCompatible].  On two filters of the store [IsCompatible]
    returns, and its result is true exactly when the sizes are equal, the
    key counts are equal and the keys are equal at every position; a
    filter is compatible with itself. *)
Theorem IsCompatible_iff (w : world) (p q : ptr) (f f2 : Filter) :
  heap w !! p = Some f → heap w !! q = Some f2 →
  (∃ b w', IsCompatible p q w = Done (b, w')
           ∧ (b = true ↔ m f = m f2
                         ∧ length (keys f) = length (keys f2)
                         ∧ ∀ i, keys f !! i = keys f2 !! i))
  ∧ (∃ w', IsCompatible p p w = Done (true, w')).
Proof.
  intros Hp Hq. rewrite (world_eta w). split.
  - eexists. eexists. split; [apply IsCompatible_spec; eassumption|].
    unfold compatible. rewrite bool_decide_eq_true. split.
    + intros [Hm Hk]. rewrite Hk. repeat split. exact Hm.
    + intros (Hm & _ & Hk). split; [exact Hm|]. apply list_eq. exact Hk.
  - eexists. rewrite (IsCompatible_spec _ _ p p f f Hp Hp). f_equal. f_equal.
    apply bool_decide_eq_true_2. split; reflexivity.
Qed.

Lemma IsCompatible_iff_witness :
  (∃ b w', IsCompatible 0%nat 1%nat two = Done (b, w')
           ∧ (b = true ↔ 64 = 64
                         ∧ length [1] = length [1]
                         ∧ ∀ i, [1] !! i = [1] !! i))
  ∧ (∃ w', IsCompatible 0%nat 0%nat two = Done (true, w')).
Proof.
  apply (IsCompatible_iff two 0%nat 1%nat
           (mkFilter [16] [1] 64 1) (mkFilter [3] [1] 64 2));
    reflexivity.
Defined.

(** C3 — [Union].  For two compatible filters that satisfy the
    construction invariants [Union] returns a pointer to a new filter with
    the size and keys of the first, whose word array is the positionwise
    OR of the two word arrays; every filter that existed, the operands
    among them, is unchanged. *)
Theorem Union_correct (w : world) (p q : ptr) (f f2 : Filter) :
  heap w !! p = Some f → heap w !! q = Some f2 → wf f → wf f2 →
  m f = m f2 → keys f = keys f2 →
  ∃ out w' g,
    Union p q w = Done (Ok out, w')
    ∧ heap w !! out = None
    ∧ heap w' !! out = Some g
    ∧ m g = m f ∧ keys g = keys f
    ∧ bits g = zip_with Z.lor (bits f) (bits f2)
    ∧ length (bits g) = length (bits f)
    ∧ length (bits g) = length (bits f2)
    ∧ heap w' !! p = Some f
    ∧ heap w' !! q = Some f2
    ∧ ∀ r g0, heap w !! r = Some g0 → heap w' !! r = Some g0.
Proof.
  intros Hp Hq [_ Hl1] [_ Hl2] Hm Hk. rewrite (world_eta w).
  assert (Hc : compatible f f2 = true)
    by (apply bool_decide_eq_true_2; split; assumption).
  assert (Hlen : length (bits f) = length (bits f2)) by congruence.
  exists (length (heap w)). eexists. exists (united f f2).
  split; [apply (Union_spec _ _ p q f f2 Hp Hq Hc Hl1 Hl2)|]. simpl.
  split; [apply lookup_ge_None_2; lia|].
  split; [apply list_lookup_middle; reflexivity|].
  repeat split.
  - apply length_zip_with_l_eq. exact Hlen.
  - apply length_zip_with_r_eq. symmetry. exact Hlen.
  - apply lookup_app_l_Some. exact Hp.
  - apply lookup_app_l_Some. exact Hq.
  - intros r g0 Hr. apply lookup_app_l_Some. exact Hr.
Qed.

Lemma Union_correct_witness :
  ∃ out w' g,
    Union 0%nat 1%nat two = Done (Ok out, w')
    ∧ heap two !! out = None
    ∧ heap w' !! out = Some g
    ∧ m g = 64 ∧ keys g = [1]
    ∧ bits g = zip_with Z.lor [16] [3]
    ∧ length (bits g) = length [16]
    ∧ length (bits g) = length [3]
    ∧ heap w' !! 0%nat = Some (mkFilter [16] [1] 64 1)
    ∧ heap w' !! 1%nat = Some (mkFilter [3] [1] 64 2)
    ∧ ∀ r g0, heap two !! r = Some g0 → heap w' !! r = Some g0.
Proof.
  apply (Union_correct two 0%nat 1%nat
           (mkFilter [16] [1] 64 1) (mkFilter [3] [1] 64 2));
    try reflexivity; split; simpl; (lia || reflexivity).
Defined.

(** C4 — [UnionInPlace].  For two compatible filters that satisfy the
    construction invariants [UnionInPlace] returns [nil]; afterwards the
    word array of the first is the positionwise OR of its prior words
    with the words of the second, its [n], size and keys are as before,
    and the second filter and every other filter are unchanged.  The two
    pointers may be equal. *)
Theorem UnionInPlace_correct (w : world) (p q : ptr) (f f2 : Filter) :
  heap w !! p = Some f → heap w !! q = Some f2 → wf f → wf f2 →
  m f = m f2 → keys f = keys f2 →
  ∃ w' f',
    UnionInPlace p q w = Done (None, w')
    ∧ heap w' !! p = Some f'
    ∧ bits f' = zip_with Z.lor (bits f) (bits f2)
    ∧ length (bits f') = length (bits f)
    ∧ n f' = n f ∧ m f' = m f ∧ keys f' = keys f
    ∧ heap w' !! q = Some f2
    ∧ ∀ r, r ≠ p → heap w' !! r = heap w !! r.
Proof.
  intros Hp Hq [_ Hl1] [_ Hl2] Hm Hk. rewrite (world_eta w).
  assert (Hc : compatible f f2 = true)
    by (apply bool_decide_eq_true_2; split; assumption).
  assert (Hlen : length (bits f) = length (bits f2)) by congruence.
  eexists. exists (set_bits f (zip_with Z.lor (bits f) (bits f2))).
  split; [apply (UnionInPlace_spec _ _ p q f f2 Hp Hq Hc Hlen)|]. simpl.
  split; [eapply lookup_inserted; exact Hp|].
  repeat split.
  - apply length_zip_with_l_eq. exact Hlen.
  - destruct (decide (p = q)) as [<-|Hne].
    + rewrite Hp in Hq. inversion Hq; subst f2.
      rewrite zip_lor_diag, set_bits_id, list_insert_id by exact Hp. exact Hp.
    + rewrite list_lookup_insert_ne by exact Hne. exact Hq.
  - intros r Hr. apply list_lookup_insert_ne. congruence.
Qed.

Lemma UnionInPlace_correct_witness :
  ∃ w' f',
    UnionInPlace 0%nat 1%nat two = Done (None, w')
    ∧ heap w' !! 0%nat = Some f'
    ∧ bits f' = zip_with Z.lor [16] [3]
    ∧ length (bits f') = length [16]
    ∧ n f' = 1 ∧ m f' = 64 ∧ keys f' = [1]
    ∧ heap w' !! 1%nat = Some (mkFilter [3] [1] 64 2)
    ∧ ∀ r, r ≠ 0%nat → heap w' !! r = heap two !! r.
Proof.
  apply (UnionInPlace_correct two 0%nat 1%nat
           (mkFilter [16] [1] 64 1) (mkFilter [3] [1] 64 2));
    try reflexivity; split; simpl; (lia || reflexivity).
Defined.

(** ** Incompatible operands *)

(** Two incompatible filters, the first with more keys than the second. *)
Definition fewer_keys : world :=
  mkWorld [mkFilter [0] [1; 2] 64 0; mkFilter [0] [1] 64 0] [].

(** Two filters of different size and the same single key. *)
Definition other_size : world :=
  mkWorld [mkFilter [0] [1] 64 0; mkFilter [0; 0] [1] 128 0] [].

(** C5 — Incompatible operands.  On two incompatible filters of which the
    first has more keys than the second, [verifyCompatible], [Union] and
    [UnionInPlace] do not return an error value: they panic, on the index
    past the end of the second key slice. *)
Theorem incompatible_operands_panic :
  (∃ b w', IsCompatible 0%nat 1%nat fewer_keys = Done (b, w') ∧ b = false)
  ∧ verifyCompatible 0%nat 1%nat fewer_keys = Panic
  ∧ UnionInPlace 0%nat 1%nat fewer_keys = Panic
  ∧ Union 0%nat 1%nat fewer_keys = Panic.
Proof.
  split; [eexists; eexists; split; reflexivity|].
  split; [|split].
  - apply (verifyCompatible_panic _ _ _ _ (mkFilter [0] [1; 2] 64 0)
             (mkFilter [0] [1] 64 0)); [reflexivity|reflexivity|simpl; lia].
  - apply (UnionInPlace_panic _ _ _ _ (mkFilter [0] [1; 2] 64 0)
             (mkFilter [0] [1] 64 0)); [reflexivity|reflexivity|simpl; lia].
  - apply (Union_panic _ _ _ _ (mkFilter [0] [1; 2] 64 0)
             (mkFilter [0] [1] 64 0)); [reflexivity|reflexivity|simpl; lia].
Qed.

(** When the sizes differ, the size slot of the message prints the two key
    counts. *)
Example size_message_prints_key_counts :
  ∃ e w', UnionInPlace 0%nat 1%nat other_size = Done (Some e, w')
          ∧ heap w' = heap other_size
          ∧ Is e = true
          ∧ Error e = "Cannot perform union on two incompatible Bloom filters: M=1 and M=1".
Proof. eexists. eexists. repeat split. Qed.

(** What holds of incompatible operands when the first filter has no more
    keys than the second: an [errIncompatible] is returned and the store
    is as it was. *)
Lemma incompatible_operands_error (w : world) (p q : ptr) (f f2 : Filter) :
  heap w !! p = Some f → heap w !! q = Some f2 →
  compatible f f2 = false →
  (length (keys f) ≤ length (keys f2))%nat →
  ∃ e,
    Is e = true
    ∧ UnionInPlace p q w
      = Done (Some e, mkWorld (heap w) (log w ++ union_events p q))
    ∧ Union p q w
      = Done (Err e, mkWorld (heap w) (log w ++ union_events p q)).
Proof.
  intros Hp Hq Hc Hl. rewrite (world_eta w).
  exists (errIncompatible (diagnostic f f2)). split; [reflexivity|]. split.
  - apply (UnionInPlace_error _ _ p q f f2 Hp Hq Hc Hl).
  - apply (Union_error _ _ p q f f2 Hp Hq Hc Hl).
Qed.

(** [verifyCompatible] returns [nil] exactly on compatible filters. *)
Lemma verifyCompatible_nil_iff (w : world) (p q : ptr) (f f2 : Filter) r w' :
  heap w !! p = Some f → heap w !! q = Some f2 →
  verifyCompatible p q w = Done (r, w') →
  r = None ↔ compatible f f2 = true.
Proof.
  intros Hp Hq. rewrite (world_eta w). intros Hrun.
  destruct (compatible f f2) eqn:Hc.
  - rewrite (verifyCompatible_nil _ _ p q f f2 Hp Hq Hc) in Hrun.
    inversion Hrun. tauto.
  - destruct (le_lt_dec (length (keys f)) (length (keys f2))) as [Hl|Hl].
    + rewrite (verifyCompatible_error _ _ p q f f2 Hp Hq Hc Hl) in Hrun.
      inversion Hrun. split; discriminate.
    + rewrite (verifyCompatible_panic _ _ p q f f2 Hp Hq Hl) in Hrun.
      discriminate.
Qed.

(** ** The false-positive probability *)

Lemma run_FalsePosititveProbability h l p f :
  h !! p = Some f →
  FalsePosititveProbability p (mkWorld h l)
  = Done (((1 - exp (- IZR (Z.of_nat (length (keys f))))
                * (IZR (n f) + 0.5) / (IZR (m f) - 1))
           ^ Z.to_nat (Z.of_nat (length (keys f))))%R,
          mkWorld h l).
Proof.
  intros Hp. unfold FalsePosititveProbability, N.
  rewrite (run_bind_Done _ _ _ _ _ (run_K h l p f Hp)).
  rewrite (run_bind_Done _ _ _ _ _ (run_n_Load h l p f Hp)).
  rewrite (run_bind_Done _ _ _ _ _ (run_M h l p f Hp)).
  reflexivity.
Qed.

(** C2 — [FalsePosititveProbability].  On the filter with one key, 64 bits
    and no insertion the function returns [1 - exp(-1) * 0.5 / 63], which
    is greater than the value [1 - exp(-0.5 / 63)] of the documented
    formula [(1 - exp(-k*(n+0.5)/(m-1))) ** k]: the exponential is applied
    to [-k] alone. *)
Theorem FalsePosititveProbability_off_formula :
  ∃ x w',
    FalsePosititveProbability 0%nat demo = Done (x, w')
    ∧ x = (1 - exp (-1) * 0.5 / 63)%R
    ∧ documented_probability 1 0 64 = (1 - exp (- (0.5 / 63)))%R
    ∧ (documented_probability 1 0 64 < x)%R.
Proof.
  assert (E1 : ((1 - exp (- IZR 1) * (IZR 0 + 0.5) / (IZR 64 - 1)) ^ 1
                = 1 - exp (-1) * 0.5 / 63)%R).
  { rewrite pow_1. replace (IZR 0 + 0.5)%R with 0.5%R by lra.
    replace (IZR 64 - 1)%R with 63%R by lra. reflexivity. }
  assert (E2 : documented_probability 1 0 64 = (1 - exp (- (0.5 / 63)))%R).
  { unfold documented_probability. change (Z.to_nat 1) with 1%nat.
    rewrite pow_1. f_equal. f_equal. lra. }
  eexists. eexists. split; [|split; [|split]].
  - apply (run_FalsePosititveProbability _ _ 0%nat (mkFilter [0] [1] 64 0)).
    reflexivity.
  - exact E1.
  - exact E2.
  - rewrite E2.
    match goal with
    | |- (_ < ?t)%R =>
        change t with ((1 - exp (- IZR 1) * (IZR 0 + 0.5) / (IZR 64 - 1)) ^ 1)%R
    end.
    rewrite E1.
    assert (H1 : (exp (-1) < exp (- (0.5 / 63)))%R) by (apply exp_increasing; lra).
    assert (H2 : (0 < exp (-1))%R) by apply exp_pos.
    lra.
Qed.

(** ** [Copy] *)

Lemma getBits_loop l p f : ∀ cnt s (out : list Z) h,
  h !! p = Some f →
  (s + cnt)%nat = length (bits f) → length out = length (bits f) →
  rangeVar (seq s cnt) out (λ out i,
      v ← bits_Load p (Z.of_nat i); mret (<[i := v]> out)) (mkWorld h l)
  = Done (take s out ++ drop s (bits f), mkWorld h l).
Proof.
  induction cnt as [|cnt IH]; intros s out h Hp Hs Hl; simpl.
  - rewrite (drop_ge (bits f)), app_nil_r, take_ge by lia. reflexivity.
  - destruct (lookup_lt_is_Some_2 (bits f) s ltac:(lia)) as [x Hx].
    erewrite run_bind_Done; cycle 1.
    { erewrite run_bind_Done; [apply run_ret|].
      eapply (run_bits_Load h l p f Hp); [lia|]. rewrite Nat2Z.id. exact Hx. }
    rewrite (IH (S s)); [|exact Hp|lia|rewrite length_insert; exact Hl].
    f_equal. f_equal.
    rewrite (take_S_r _ _ x) by (apply list_lookup_insert_eq; lia).
    rewrite take_insert_ge by lia.
    rewrite (drop_S (bits f) _ _ Hx), <- app_assoc. reflexivity.
Qed.

Lemma run_getBits h l p f :
  h !! p = Some f → getBits p (mkWorld h l) = Done (bits f, mkWorld h l).
Proof.
  intros Hp. unfold getBits.
  rewrite (run_bind_Done _ _ _ _ _ (run_deref_at h l p f Hp)).
  rewrite (getBits_loop l p f _ 0 _ h Hp);
    [|reflexivity|apply length_replicate].
  rewrite take_0, drop_0. reflexivity.
Qed.

Lemma setBits_loop l out g : ∀ (c : list Z) s bs h,
  h !! out = Some (set_bits g bs) → (s + length c ≤ length bs)%nat →
  range (zip (seq s (length c)) c)
        (λ iv, bits_Store out (Z.of_nat iv.1) iv.2) (mkWorld h l)
  = Done (tt, mkWorld
      (<[out := set_bits g (take s bs ++ c ++ drop (s + length c) bs)]> h) l).
Proof.
  induction c as [|x t IH]; intros s bs h Ho Hs; simpl in *.
  - rewrite Nat.add_0_r, take_drop, list_insert_id by exact Ho. reflexivity.
  - destruct (lookup_lt_is_Some_2 bs s ltac:(lia)) as [z Hz].
    rewrite run_bind.
    erewrite (run_bits_Store h l out _ Ho); [|lia|rewrite Nat2Z.id; exact Hz].
    rewrite Nat2Z.id. simpl set_bits.
    rewrite (IH (S s) (<[s := x]> bs));
      [|eapply lookup_inserted; exact Ho|rewrite length_insert; lia].
    rewrite insert_twice. f_equal. f_equal. f_equal. f_equal.
    rewrite (take_S_r _ _ x) by (apply list_lookup_insert_eq; lia).
    rewrite take_insert_ge, drop_insert_lt by lia.
    rewrite <- app_assoc. simpl.
    replace (S (s + length t)) with (s + S (length t))%nat by lia. reflexivity.
Qed.

Lemma run_setBits h l out g b :
  h !! out = Some g →
  setBits out b (mkWorld h l)
  = Done (tt, mkWorld
      (<[out := set_bits g
                  (take (Nat.min (length b) (length (bits g))) b
                   ++ drop (Nat.min (length b) (length (bits g))) (bits g))]> h) l).
Proof.
  intros Ho. unfold setBits, indexed.
  rewrite (run_bind_Done _ _ _ _ _ (run_deref_at h l out g Ho)).
  rewrite (setBits_loop l out g _ 0 (bits g));
    [|rewrite set_bits_id; exact Ho|rewrite length_take; simpl; lia].
  rewrite take_0, length_take. simpl.
  replace (Nat.min (Nat.min (length b) (length (bits g))) (length b))
    with (Nat.min (length b) (length (bits g))) by lia.
  reflexivity.
Qed.

(** The filter that [Copy] returns. *)
Definition copied (f : Filter) : Filter :=
  mkFilter (take (Nat.min (length (bits f)) (nwords (m f))) (bits f)
            ++ drop (Nat.min (length (bits f)) (nwords (m f)))
                 (replicate (nwords (m f)) 0))
           (keys f) (m f) (n f).

Lemma copied_wf f : length (bits f) = nwords (m f) → copied f = f.
Proof.
  intros Hl. unfold copied. rewrite <- Hl, Nat.min_id, take_ge by lia.
  rewrite drop_ge by (rewrite length_replicate; lia).
  rewrite app_nil_r. destruct f. reflexivity.
Qed.

Lemma Copy_spec h l p f :
  h !! p = Some f →
  Copy p (mkWorld h l)
  = Done (Ok (length h), mkWorld (h ++ [copied f]) (l ++ [EvLock p; EvUnlock p])).
Proof.
  intros Hp. assert (Hlt := lookup_lt_Some _ _ _ Hp). unfold Copy, defer.
  rewrite (run_bind_Done _ _ _ _ _ (run_NewCompatible h l p f Hp)).
  assert (Hp1 : (h ++ [sibling f]) !! p = Some f)
    by (apply lookup_app_l_Some; exact Hp).
  assert (Ho1 : (h ++ [sibling f]) !! length h = Some (sibling f))
    by (apply list_lookup_middle; reflexivity).
  rewrite (run_bind_Done _ _ _ _ _ (run_Lock _ _ p f Hp1)).
  rewrite run_bind.
  rewrite (run_bind_Done _ _ _ _ _ (run_getBits _ _ p f Hp1)).
  rewrite (run_bind_Done _ _ _ _ _ (run_setBits _ _ _ _ (bits f) Ho1)).
  erewrite (run_bind_Done (n_Load p)); cycle 1.
  { eapply run_n_Load. rewrite list_lookup_insert_ne by lia. exact Hp1. }
  erewrite (run_bind_Done (n_Store _ _)); cycle 1.
  { eapply run_n_Store. eapply lookup_inserted. exact Ho1. }
  rewrite run_ret, insert_twice.
  rewrite insert_app_r_alt, Nat.sub_diag by lia. simpl.
  rewrite length_replicate.
  erewrite (run_bind_Done (Unlock p)); cycle 1.
  { eapply run_Unlock. apply lookup_app_l_Some. exact Hp. }
  rewrite run_ret, <- app_assoc. reflexivity.
Qed.

(** ** Lock modes *)

Definition exclusive (e : lockEvent) : bool :=
  match e with
  | EvLock _ | EvUnlock _ => true
  | EvRLock _ | EvRUnlock _ => false
  end.








(** * Further properties of the operations *)

(** ** More on the bit vector *)

Lemma split_index i : i = 64 * (i ≫ 6) + Z.land i 63.
Proof.
  rewrite Z.shiftr_div_pow2 by lia. change 63 with (Z.ones 6).
  rewrite Z.land_ones by lia. change (2 ^ 6) with 64.
  apply Z.div_mod. lia.
Qed.

Lemma lookup_orBit bs i k :
  orBit bs i !! k
  = if decide (k = Z.to_nat (i ≫ 6))
    then (λ w, Z.lor w (1 ≪ Z.land i 63)) <$> bs !! k
    else bs !! k.
Proof.
  unfold orBit. destruct (decide (k = Z.to_nat (i ≫ 6))) as [->|Hne].
  - destruct (bs !! Z.to_nat (i ≫ 6)) as [w|] eqn:E.
    + rewrite list_lookup_insert_eq by (eapply lookup_lt_Some; exact E).
      reflexivity.
    + rewrite E. reflexivity.
  - destruct (bs !! Z.to_nat (i ≫ 6)) as [w|] eqn:E; [|reflexivity].
    apply list_lookup_insert_ne. congruence.
Qed.

(** Setting bit [i] changes bit [i] and no other. *)
Lemma getBit_orBit bs i j :
  0 ≤ i → 0 ≤ j → (Z.to_nat (i ≫ 6) < length bs)%nat →
  getBit (orBit bs i) j = getBit bs j || (j =? i).
Proof.
  intros Hi Hj Hlt. unfold getBit. rewrite lookup_orBit.
  destruct (decide (Z.to_nat (j ≫ 6) = Z.to_nat (i ≫ 6))) as [E|Hne].
  - assert (Ew : j ≫ 6 = i ≫ 6).
    { pose proof (word_index_nonneg i Hi). pose proof (word_index_nonneg j Hj).
      lia. }
    rewrite E. destruct (lookup_lt_is_Some_2 bs _ Hlt) as [w Hw].
    rewrite Hw. simpl. rewrite Z.lor_spec. f_equal.
    rewrite Z.shiftl_1_l, Z.pow2_bits_eqb by apply land63_nonneg.
    pose proof (split_index i). pose proof (split_index j).
    destruct (Z.eqb_spec (Z.land i 63) (Z.land j 63)) as [Es|Es];
      destruct (Z.eqb_spec j i) as [Eji|Eji]; try reflexivity.
    + exfalso. apply Eji. lia.
    + exfalso. apply Es. rewrite Eji. reflexivity.
  - destruct (Z.eqb_spec j i) as [->|_]; [contradiction|].
    rewrite orb_false_r. reflexivity.
Qed.

Lemma getBit_fold_orBit ix : ∀ bs j,
  0 ≤ j →
  Forall (λ i, 0 ≤ i ∧ (Z.to_nat (i ≫ 6) < length bs)%nat) ix →
  getBit (fold_left orBit ix bs) j = getBit bs j || existsb (λ i, j =? i) ix.
Proof.
  induction ix as [|i t IH]; intros bs j Hj Hall; simpl.
  - rewrite orb_false_r. reflexivity.
  - inversion Hall as [|? ? [Hi Hlt] Ht]; subst.
    rewrite IH; [|exact Hj|].
    + rewrite getBit_orBit by assumption. symmetry. apply orb_assoc.
    + eapply Forall_impl; [exact Ht|]. intros k [Hk Hk'].
      rewrite length_orBit. split; assumption.
Qed.

Lemma targets_in_range f v :
  wf f →
  Forall (λ i, 0 ≤ i ∧ (Z.to_nat (i ≫ 6) < length (bits f))%nat) (targets f v).
Proof.
  intros [Hm Hl]. eapply Forall_impl; [apply targets_range; exact Hm|].
  intros i Hi. simpl in Hi. split; [lia|]. rewrite Hl.
  apply word_index_lt. exact Hi.
Qed.

Lemma orBit_comm bs i j : orBit (orBit bs i) j = orBit (orBit bs j) i.
Proof.
  apply list_eq. intros k. rewrite !lookup_orBit.
  destruct (decide (k = Z.to_nat (j ≫ 6))), (decide (k = Z.to_nat (i ≫ 6)));
    try reflexivity.
  destruct (bs !! k) as [w|]; [|reflexivity]. simpl. f_equal.
  rewrite <- !Z.lor_assoc. f_equal. apply Z.lor_comm.
Qed.

Lemma fold_orBit_orBit ix : ∀ bs i,
  fold_left orBit ix (orBit bs i) = orBit (fold_left orBit ix bs) i.
Proof.
  induction ix as [|k t IH]; intros bs i; simpl; [reflexivity|].
  rewrite orBit_comm. apply IH.
Qed.

Lemma fold_orBit_comm ix : ∀ iy bs,
  fold_left orBit iy (fold_left orBit ix bs)
  = fold_left orBit ix (fold_left orBit iy bs).
Proof.
  induction ix as [|k t IH]; intros iy bs; simpl; [reflexivity|].
  rewrite IH, fold_orBit_orBit. reflexivity.
Qed.

(** Setting bits that are set changes nothing. *)
Lemma fold_orBit_set ix : ∀ bs,
  forallb (getBit bs) ix = true → fold_left orBit ix bs = bs.
Proof.
  induction ix as [|i t IH]; intros bs H; simpl in *; [reflexivity|].
  apply andb_true_iff in H as [Hi Ht].
  rewrite (orBit_set bs i Hi). apply IH. exact Ht.
Qed.

Lemma getBit_zip_lor (a b : list Z) j :
  length a = length b →
  getBit (zip_with Z.lor a b) j = getBit a j || getBit b j.
Proof.
  intros Hl. unfold getBit. rewrite lookup_zip_with.
  destruct (a !! Z.to_nat (j ≫ 6)) as [x|] eqn:Ea; simpl.
  - destruct (lookup_lt_is_Some_2 b (Z.to_nat (j ≫ 6))) as [y Hy].
    { rewrite <- Hl. eapply lookup_lt_Some. exact Ea. }
    rewrite Hy. simpl. apply Z.lor_spec.
  - rewrite (lookup_ge_None_2 b); [reflexivity|].
    rewrite <- Hl. apply lookup_ge_None_1. exact Ea.
Qed.

Lemma zip_lor_idem (a b : list Z) :
  zip_with Z.lor (zip_with Z.lor a b) b = zip_with Z.lor a b.
Proof.
  revert b. induction a as [|x t IH]; intros [|y u]; simpl; try reflexivity.
  rewrite IH. f_equal. rewrite <- Z.lor_assoc, Z.lor_diag. reflexivity.
Qed.

Lemma zip_lor_comm (a b : list Z) : zip_with Z.lor a b = zip_with Z.lor b a.
Proof.
  revert b. induction a as [|x t IH]; intros [|y u]; simpl; try reflexivity.
  rewrite IH, Z.lor_comm. reflexivity.
Qed.

(** ** Insertion *)

(** X1 — [Add] sets the target bits and nothing else.  On a filter that
    satisfies the construction invariants [Add] returns; afterwards a bit
    is set exactly when it was set before or is one of the targets
    [(v XOR key_i) mod m]; [n] is incremented modulo [2^64]; the size, the
    keys and every other filter are as before. *)
Theorem Add_sets_exactly_targets (w : world) (p : ptr) (f : Filter) (v : Z) :
  heap w !! p = Some f → wf f →
  ∃ w' f',
    Add p v w = Done (tt, w')
    ∧ heap w' !! p = Some f'
    ∧ m f' = m f ∧ keys f' = keys f
    ∧ length (bits f') = length (bits f)
    ∧ n f' = (n f + 1) mod 2 ^ 64
    ∧ (∀ j, 0 ≤ j →
            getBit (bits f') j
            = getBit (bits f) j || existsb (λ i, j =? i) (targets f v))
    ∧ ∀ r, r ≠ p → heap w' !! r = heap w !! r.
Proof.
  intros Hp Hwf. destruct w as [h l]. simpl in Hp.
  eexists. exists (inserted f v).
  split; [apply (Add_spec h l p f v Hp Hwf)|]. simpl.
  split; [eapply lookup_inserted; exact Hp|].
  repeat split.
  - apply length_fold_orBit.
  - intros j Hj. apply getBit_fold_orBit; [exact Hj|].
    apply targets_in_range. exact Hwf.
  - intros r Hr. apply list_lookup_insert_ne. congruence.
Qed.

Lemma Add_sets_exactly_targets_witness :
  ∃ w' f',
    Add 0%nat 5 two = Done (tt, w')
    ∧ heap w' !! 0%nat = Some f'
    ∧ m f' = 64 ∧ keys f' = [1]
    ∧ length (bits f') = 1%nat
    ∧ n f' = (1 + 1) mod 2 ^ 64
    ∧ (∀ j, 0 ≤ j →
            getBit (bits f') j
            = getBit [16] j
              || existsb (λ i, j =? i) (targets (mkFilter [16] [1] 64 1) 5))
    ∧ ∀ r, r ≠ 0%nat → heap w' !! r = heap two !! r.
Proof.
  apply (Add_sets_exactly_targets two 0%nat (mkFilter [16] [1] 64 1) 5).
  - reflexivity.
  - split; [simpl; lia|reflexivity].
Defined.

(** X2 — [AddC] leaves the state that [Add] leaves.  On a filter that
    satisfies the construction invariants the two calls end in the same
    world (store and lock log); they differ only in that [AddC] returns a
    flag. *)
Theorem AddC_state_is_Add_state (w : world) (p : ptr) (f : Filter) (v : Z) :
  heap w !! p = Some f → wf f →
  ∃ b w', AddC p v w = Done (b, w') ∧ Add p v w = Done (tt, w').
Proof.
  intros Hp Hwf. destruct w as [h l]. simpl in Hp.
  eexists. eexists. split.
  - apply (AddC_spec h l p f v Hp Hwf).
  - apply (Add_spec h l p f v Hp Hwf).
Qed.

Lemma AddC_state_is_Add_state_witness :
  ∃ b w', AddC 1%nat 9 two = Done (b, w') ∧ Add 1%nat 9 two = Done (tt, w').
Proof.
  apply (AddC_state_is_Add_state two 1%nat (mkFilter [3] [1] 64 2) 9).
  - reflexivity.
  - split; [simpl; lia|reflexivity].
Defined.

Lemma inserted_wf f v : wf f → wf (inserted f v).
Proof.
  intros [Hm Hl]. split; [exact Hm|]. simpl.
  rewrite length_fold_orBit. exact Hl.
Qed.

(** X3 — Inserting twice.  After [Add] of a raw hash, [AddC] of the same
    hash returns true ("maybe contained") and leaves every word of the
    filter as it is; only [n] grows. *)
Theorem AddC_after_Add (w : world) (p : ptr) (f : Filter) (v : Z) :
  heap w !! p = Some f → wf f →
  ∃ w1 w2 f1 f2,
    Add p v w = Done (tt, w1)
    ∧ AddC p v w1 = Done (true, w2)
    ∧ heap w1 !! p = Some f1
    ∧ heap w2 !! p = Some f2
    ∧ bits f2 = bits f1
    ∧ n f2 = (n f1 + 1) mod 2 ^ 64.
Proof.
  intros Hp Hwf. destruct w as [h l]. simpl in Hp.
  assert (Hp1 : <[p := inserted f v]> h !! p = Some (inserted f v))
    by (eapply lookup_inserted; exact Hp).
  assert (Hset : forallb (getBit (bits (inserted f v)))
                         (targets (inserted f v) v) = true)
    by (change (targets (inserted f v) v) with (targets f v);
        apply inserted_targets_set; exact Hwf).
  eexists. eexists. exists (inserted f v), (inserted (inserted f v) v).
  split; [apply (Add_spec h l p f v Hp Hwf)|].
  split.
  { rewrite (AddC_spec _ _ p _ v Hp1 (inserted_wf f v Hwf)), Hset.
    reflexivity. }
  simpl. split; [exact Hp1|].
  split; [eapply lookup_inserted; exact Hp1|].
  split; [|reflexivity].
  apply fold_orBit_set. exact Hset.
Qed.

Lemma AddC_after_Add_witness :
  ∃ w1 w2 f1 f2,
    Add 0%nat 7 demo = Done (tt, w1)
    ∧ AddC 0%nat 7 w1 = Done (true, w2)
    ∧ heap w1 !! 0%nat = Some f1
    ∧ heap w2 !! 0%nat = Some f2
    ∧ bits f2 = bits f1
    ∧ n f2 = (n f1 + 1) mod 2 ^ 64.
Proof.
  apply (AddC_after_Add demo 0%nat (mkFilter [0] [1] 64 0) 7).
  - reflexivity.
  - split; [simpl; lia|reflexivity].
Defined.

(** X4 — Insertions commute.  On a filter that satisfies the construction
    invariants, [Add] of two raw hashes in either order ends in the same
    world. *)
Theorem Add_commutes (w : world) (p : ptr) (f : Filter) (v1 v2 : Z) :
  heap w !! p = Some f → wf f →
  ∃ w', (Add p v1;; Add p v2) w = Done (tt, w')
        ∧ (Add p v2;; Add p v1) w = Done (tt, w').
Proof.
  intros Hp Hwf. destruct w as [h l]. simpl in Hp.
  assert (H1 : <[p := inserted f v1]> h !! p = Some (inserted f v1))
    by (eapply lookup_inserted; exact Hp).
  assert (H2 : <[p := inserted f v2]> h !! p = Some (inserted f v2))
    by (eapply lookup_inserted; exact Hp).
  eexists. split.
  - rewrite (run_bind_Done _ _ _ _ _ (Add_spec h l p f v1 Hp Hwf)).
    rewrite (Add_spec _ _ p _ v2 H1 (inserted_wf f v1 Hwf)).
    rewrite insert_twice. reflexivity.
  - rewrite (run_bind_Done _ _ _ _ _ (Add_spec h l p f v2 Hp Hwf)).
    rewrite (Add_spec _ _ p _ v1 H2 (inserted_wf f v2 Hwf)).
    rewrite insert_twice. f_equal. f_equal. f_equal. f_equal.
    unfold inserted. simpl. f_equal. unfold targets. simpl.
    apply fold_orBit_comm.
Qed.

Lemma Add_commutes_witness :
  ∃ w', (Add 0%nat 5;; Add 0%nat 70) two = Done (tt, w')
        ∧ (Add 0%nat 70;; Add 0%nat 5) two = Done (tt, w').
Proof.
  apply (Add_commutes two 0%nat (mkFilter [16] [1] 64 1) 5 70).
  - reflexivity.
  - split; [simpl; lia|reflexivity].
Defined.

(** ** Copies and snapshots *)

(** X5 — [Copy].  On any filter of the store [Copy] returns a pointer to a
    new filter with the same size, keys and [n], and with [ceil(m/64)]
    words; when the filter has that many words the copy is equal to it.
    Every filter that existed is unchanged. *)
Theorem Copy_correct (w : world) (p : ptr) (f : Filter) :
  heap w !! p = Some f →
  ∃ out w' g,
    Copy p w = Done (Ok out, w')
    ∧ heap w !! out = None
    ∧ heap w' !! out = Some g
    ∧ m g = m f ∧ keys g = keys f ∧ n g = n f
    ∧ length (bits g) = nwords (m f)
    ∧ (length (bits f) = nwords (m f) → g = f)
    ∧ ∀ r g0, heap w !! r = Some g0 → heap w' !! r = Some g0.
Proof.
  intros Hp. destruct w as [h l]. simpl in Hp.
  exists (length h). eexists. exists (copied f).
  split; [apply (Copy_spec h l p f Hp)|]. simpl.
  split; [apply lookup_ge_None_2; lia|].
  split; [apply list_lookup_middle; reflexivity|].
  repeat split.
  - rewrite length_app, length_take, length_drop, length_replicate. lia.
  - apply copied_wf.
  - intros r g0 Hr. apply lookup_app_l_Some. exact Hr.
Qed.

Lemma Copy_correct_witness :
  ∃ out w' g,
    Copy 1%nat two = Done (Ok out, w')
    ∧ heap two !! out = None
    ∧ heap w' !! out = Some g
    ∧ m g = 64 ∧ keys g = [1] ∧ n g = 2
    ∧ length (bits g) = nwords 64
    ∧ (length [3] = nwords 64 → g = mkFilter [3] [1] 64 2)
    ∧ ∀ r g0, heap two !! r = Some g0 → heap w' !! r = Some g0.
Proof.
  apply (Copy_correct two 1%nat (mkFilter [3] [1] 64 2)). reflexivity.
Defined.

(** X6 — A copy is independent of its original.  After [Copy], an
    insertion into the copy leaves the original as it was, and an
    insertion into the original leaves the copy as it was. *)
Theorem Copy_independent (w : world) (p : ptr) (f : Filter) (v : Z) :
  heap w !! p = Some f → wf f →
  ∃ out w1 w2 w3,
    Copy p w = Done (Ok out, w1)
    ∧ heap w1 !! out = Some f
    ∧ Add out v w1 = Done (tt, w2)
    ∧ heap w2 !! p = Some f
    ∧ Add p v w1 = Done (tt, w3)
    ∧ heap w3 !! out = Some f.
Proof.
  intros Hp Hwf. destruct w as [h l]. simpl in Hp.
  assert (Hlt := lookup_lt_Some _ _ _ Hp).
  assert (Hc : copied f = f) by (apply copied_wf, Hwf).
  assert (Ho : (h ++ [f]) !! length h = Some f)
    by (apply list_lookup_middle; reflexivity).
  assert (Hp' : (h ++ [f]) !! p = Some f)
    by (apply lookup_app_l_Some; exact Hp).
  exists (length h). eexists. eexists. eexists.
  split; [rewrite (Copy_spec h l p f Hp), Hc; reflexivity|]. simpl.
  split; [exact Ho|].
  split; [apply (Add_spec _ _ _ f v Ho Hwf)|]. simpl.
  split; [rewrite list_lookup_insert_ne by lia; exact Hp'|].
  split; [apply (Add_spec _ _ _ f v Hp' Hwf)|]. simpl.
  rewrite list_lookup_insert_ne by lia. exact Ho.
Qed.

Lemma Copy_independent_witness :
  ∃ out w1 w2 w3,
    Copy 0%nat two = Done (Ok out, w1)
    ∧ heap w1 !! out = Some (mkFilter [16] [1] 64 1)
    ∧ Add out 9 w1 = Done (tt, w2)
    ∧ heap w2 !! 0%nat = Some (mkFilter [16] [1] 64 1)
    ∧ Add 0%nat 9 w1 = Done (tt, w3)
    ∧ heap w3 !! out = Some (mkFilter [16] [1] 64 1).
Proof.
  apply (Copy_independent two 0%nat (mkFilter [16] [1] 64 1) 9).
  - reflexivity.
  - split; [simpl; lia|reflexivity].
Defined.

(** X7 — [setBits] never runs out of bounds.  For a slice [b] of any
    length [setBits] returns: it overwrites the words that both [b] and
    the filter have, leaves the filter's further words, and ignores the
    further elements of [b]; the number of words, the size, the keys and
    [n] are as before. *)
Theorem setBits_truncates (w : world) (p : ptr) (f : Filter) (b : list Z) :
  heap w !! p = Some f →
  ∃ w' f',
    setBits p b w = Done (tt, w')
    ∧ log w' = log w
    ∧ heap w' !! p = Some f'
    ∧ m f' = m f ∧ keys f' = keys f ∧ n f' = n f
    ∧ length (bits f') = length (bits f)
    ∧ (∀ i, (i < length b)%nat → (i < length (bits f))%nat →
            bits f' !! i = b !! i)
    ∧ (∀ i, (length b ≤ i)%nat → bits f' !! i = bits f !! i)
    ∧ ∀ r, r ≠ p → heap w' !! r = heap w !! r.
Proof.
  intros Hp. destruct w as [h l]. simpl in Hp.
  eexists. eexists.
  split; [apply (run_setBits h l p f b Hp)|]. simpl.
  split; [reflexivity|].
  split; [eapply lookup_inserted; exact Hp|]. simpl.
  repeat split.
  - rewrite length_app, length_take, length_drop. lia.
  - intros i H1 H2. rewrite lookup_app_l by (rewrite length_take; lia).
    apply lookup_take_lt. lia.
  - intros i Hi.
    destruct (decide (length b ≤ length (bits f))%nat) as [Hle|Hgt].
    + rewrite Nat.min_l by exact Hle.
      rewrite lookup_app_r by (rewrite length_take; lia).
      rewrite length_take, lookup_drop. f_equal. lia.
    + rewrite Nat.min_r by lia.
      rewrite (lookup_ge_None_2 (bits f)) by lia.
      apply lookup_ge_None_2.
      rewrite length_app, length_take, length_drop. lia.
  - intros r Hr. apply list_lookup_insert_ne. congruence.
Qed.

Lemma setBits_truncates_witness :
  ∃ w' f',
    setBits 0%nat [7; 8; 9] two = Done (tt, w')
    ∧ log w' = log two
    ∧ heap w' !! 0%nat = Some f'
    ∧ m f' = 64 ∧ keys f' = [1] ∧ n f' = 1
    ∧ length (bits f') = length [16]
    ∧ (∀ i, (i < length [7; 8; 9])%nat → (i < length [16])%nat →
            bits f' !! i = [7; 8; 9] !! i)
    ∧ (∀ i, (length [7; 8; 9] ≤ i)%nat → bits f' !! i = [16] !! i)
    ∧ ∀ r, r ≠ 0%nat → heap w' !! r = heap two !! r.
Proof.
  apply (setBits_truncates two 0%nat (mkFilter [16] [1] 64 1) [7; 8; 9]).
  reflexivity.
Defined.

(** X8 — Snapshot round trip.  [getBits] returns the words of the filter
    and changes nothing; writing that snapshot back with [setBits] leaves
    the world as it is. *)
Theorem getBits_setBits_roundtrip (w : world) (p : ptr) (f : Filter) :
  heap w !! p = Some f →
  getBits p w = Done (bits f, w)
  ∧ (b ← getBits p; setBits p b) w = Done (tt, w).
Proof.
  intros Hp. destruct w as [h l]. simpl in Hp.
  assert (Hg := run_getBits h l p f Hp). split; [exact Hg|].
  rewrite (run_bind_Done _ _ _ _ _ Hg), (run_setBits h l p f _ Hp).
  rewrite Nat.min_id, take_drop, set_bits_id, list_insert_id by exact Hp.
  reflexivity.
Qed.

Lemma getBits_setBits_roundtrip_witness :
  getBits 1%nat two = Done ([3], two)
  ∧ (b ← getBits 1%nat; setBits 1%nat b) two = Done (tt, two).
Proof.
  apply (getBits_setBits_roundtrip two 1%nat (mkFilter [3] [1] 64 2)).
  reflexivity.
Defined.

(** ** Key comparison *)

Lemma zip_lxor_prefix (a b : list Z) :
  (length a ≤ length b)%nat →
  Forall (λ x, x = 0) (zip_with Z.lxor a b) ↔ a = take (length a) b.
Proof.
  intros Hl. rewrite <- (zip_with_take_r Z.lxor a b).
  apply zip_lxor_zero. rewrite length_take. lia.
Qed.

(** X9 — [noBranchCompareUint64s] compares a prefix.  When the second
    slice is at least as long as the first, the function returns, and it
    returns 0 exactly when the first slice is equal to the prefix of that
    length of the second: further elements of the second are not looked
    at. *)
Theorem noBranchCompareUint64s_prefix (b0 b1 : list Z) (w : world) :
  (length b0 ≤ length b1)%nat →
  ∃ r, noBranchCompareUint64s b0 b1 w = Done (r, w)
       ∧ (r = 0 ↔ b0 = take (length b0) b1).
Proof.
  intros Hl. eexists. split.
  - unfold noBranchCompareUint64s, indexed. apply noBranch_loop. simpl. lia.
  - rewrite drop_0, fold_lor_zero, zip_lxor_prefix by exact Hl. tauto.
Qed.

Lemma noBranchCompareUint64s_prefix_witness :
  ∃ r, noBranchCompareUint64s [4; 5] [4; 5; 6] demo = Done (r, demo)
       ∧ (r = 0 ↔ [4; 5] = take (length [4; 5]) [4; 5; 6]).
Proof.
  apply (noBranchCompareUint64s_prefix [4; 5] [4; 5; 6] demo). simpl. lia.
Defined.

(** X10 — [noBranchCompareUint64s] indexes past a shorter second slice.
    When the second slice is shorter than the first the function panics,
    whatever the elements are: there is no early exit on a mismatch. *)
Theorem noBranchCompareUint64s_overrun (b0 b1 : list Z) (w : world) :
  (length b1 < length b0)%nat → noBranchCompareUint64s b0 b1 w = Panic.
Proof.
  intros Hl. unfold noBranchCompareUint64s, indexed.
  apply noBranch_overrun. lia.
Qed.

Lemma noBranchCompareUint64s_overrun_witness :
  noBranchCompareUint64s [1; 2] [9] demo = Panic.
Proof.
  apply (noBranchCompareUint64s_overrun [1; 2] [9] demo). simpl. lia.
Defined.

(** ** Unions and membership *)

(** Membership in the positionwise OR of two vectors. *)
Lemma contains_zip_lor (a b : list Z) (ix : list Z) :
  length a = length b →
  forallb (getBit a) ix = true ∨ forallb (getBit b) ix = true →
  forallb (getBit (zip_with Z.lor a b)) ix = true.
Proof.
  intros Hl H. apply forallb_forall. intros j Hj.
  rewrite getBit_zip_lor by exact Hl.
  destruct H as [H|H]; eapply forallb_forall in H; try exact Hj; rewrite H.
  - reflexivity.
  - apply orb_true_r.
Qed.

Lemma merged_keeps_operand (h : list Filter) p q f f2 :
  h !! p = Some f → h !! q = Some f2 →
  <[p := set_bits f (zip_with Z.lor (bits f) (bits f2))]> h !! q = Some f2.
Proof.
  intros Hp Hq. destruct (decide (p = q)) as [<-|Hne].
  - rewrite Hp in Hq. inversion Hq; subst f2.
    rewrite zip_lor_diag, set_bits_id, list_insert_id by exact Hp. exact Hp.
  - rewrite list_lookup_insert_ne by exact Hne. exact Hq.
Qed.

(** X11 — [UnionInPlace] keeps the members of both operands.  For
    compatible filters that satisfy the construction invariants, every raw
    hash for which [Contains] was true on the first or on the second
    filter before the union is contained in the first filter after it. *)
Theorem UnionInPlace_contains (w : world) (p q : ptr) (f f2 : Filter) (v : Z) :
  heap w !! p = Some f → heap w !! q = Some f2 → wf f → wf f2 →
  m f = m f2 → keys f = keys f2 →
  ∃ w' b1 b2 b3 w1 w2 w3,
    UnionInPlace p q w = Done (None, w')
    ∧ Contains p v w = Done (b1, w1)
    ∧ Contains q v w = Done (b2, w2)
    ∧ Contains p v w' = Done (b3, w3)
    ∧ (b1 = true ∨ b2 = true → b3 = true).
Proof.
  intros Hp Hq Hwf Hwf2 Hm Hk. destruct w as [h l]. simpl in Hp, Hq.
  assert (Hc : compatible f f2 = true)
    by (apply bool_decide_eq_true_2; split; assumption).
  assert (Hlen : length (bits f) = length (bits f2))
    by (destruct Hwf as [_ ->], Hwf2 as [_ ->]; congruence).
  set (f' := set_bits f (zip_with Z.lor (bits f) (bits f2))).
  assert (Hwf' : wf f').
  { destruct Hwf as [H1 H2]. split; [exact H1|]. simpl.
    rewrite length_zip_with_l_eq by exact Hlen. exact H2. }
  assert (Hp' : <[p := f']> h !! p = Some f')
    by (eapply lookup_inserted; exact Hp).
  eexists. eexists. eexists. eexists. eexists. eexists. eexists.
  split; [apply (UnionInPlace_spec h l p q f f2 Hp Hq Hc Hlen)|].
  split; [apply (Contains_spec h l p f v Hp Hwf)|].
  split; [apply (Contains_spec h l q f2 v Hq Hwf2)|].
  split; [apply (Contains_spec _ _ p f' v Hp' Hwf')|].
  change (targets f' v) with (targets f v).
  assert (Ht : targets f2 v = targets f v)
    by (unfold targets; rewrite Hm, Hk; reflexivity).
  rewrite Ht. apply contains_zip_lor. exact Hlen.
Qed.

Lemma UnionInPlace_contains_witness :
  ∃ w' b1 b2 b3 w1 w2 w3,
    UnionInPlace 0%nat 1%nat two = Done (None, w')
    ∧ Contains 0%nat 0 two = Done (b1, w1)
    ∧ Contains 1%nat 0 two = Done (b2, w2)
    ∧ Contains 0%nat 0 w' = Done (b3, w3)
    ∧ (b1 = true ∨ b2 = true → b3 = true).
Proof.
  apply (UnionInPlace_contains two 0%nat 1%nat
           (mkFilter [16] [1] 64 1) (mkFilter [3] [1] 64 2) 0);
    try reflexivity; split; simpl; (lia || reflexivity).
Defined.

(** X12 — [Union] contains the members of both operands and counts no
    insertion.  For compatible filters that satisfy the construction
    invariants, the filter that [Union] returns contains every raw hash
    for which [Contains] is true on either operand, and its [N()] is 0. *)
Theorem Union_contains (w : world) (p q : ptr) (f f2 : Filter) (v : Z) :
  heap w !! p = Some f → heap w !! q = Some f2 → wf f → wf f2 →
  m f = m f2 → keys f = keys f2 →
  ∃ out w' b1 b2 b3 w1 w2 w3 w4,
    Union p q w = Done (Ok out, w')
    ∧ N out w' = Done (0, w4)
    ∧ Contains p v w = Done (b1, w1)
    ∧ Contains q v w = Done (b2, w2)
    ∧ Contains out v w' = Done (b3, w3)
    ∧ (b1 = true ∨ b2 = true → b3 = true).
Proof.
  intros Hp Hq Hwf Hwf2 Hm Hk. destruct w as [h l]. simpl in Hp, Hq.
  assert (Hc : compatible f f2 = true)
    by (apply bool_decide_eq_true_2; split; assumption).
  assert (Hlen : length (bits f) = length (bits f2))
    by (destruct Hwf as [_ ->], Hwf2 as [_ ->]; congruence).
  assert (Hwf' : wf (united f f2)).
  { destruct Hwf as [H1 H2]. split; [exact H1|]. simpl.
    rewrite length_zip_with_l_eq by exact Hlen. exact H2. }
  assert (Ho : (h ++ [united f f2]) !! length h = Some (united f f2))
    by (apply list_lookup_middle; reflexivity).
  exists (length h).
  eexists. eexists. eexists. eexists. eexists. eexists. eexists. eexists.
  split; [apply (Union_spec h l p q f f2 Hp Hq Hc (proj2 Hwf) (proj2 Hwf2))|].
  split; [apply (run_n_Load _ _ _ _ Ho)|].
  split; [apply (Contains_spec h l p f v Hp Hwf)|].
  split; [apply (Contains_spec h l q f2 v Hq Hwf2)|].
  split; [apply (Contains_spec _ _ _ (united f f2) v Ho Hwf')|].
  change (targets (united f f2) v) with (targets f v).
  assert (Ht : targets f2 v = targets f v)
    by (unfold targets; rewrite Hm, Hk; reflexivity).
  rewrite Ht. apply contains_zip_lor. exact Hlen.
Qed.

Lemma Union_contains_witness :
  ∃ out w' b1 b2 b3 w1 w2 w3 w4,
    Union 0%nat 1%nat two = Done (Ok out, w')
    ∧ N out w' = Done (0, w4)
    ∧ Contains 0%nat 5 two = Done (b1, w1)
    ∧ Contains 1%nat 5 two = Done (b2, w2)
    ∧ Contains out 5 w' = Done (b3, w3)
    ∧ (b1 = true ∨ b2 = true → b3 = true).
Proof.
  apply (Union_contains two 0%nat 1%nat
           (mkFilter [16] [1] 64 1) (mkFilter [3] [1] 64 2) 5);
    try reflexivity; split; simpl; (lia || reflexivity).
Defined.

(** X13 — [Union] is symmetric.  For compatible filters that satisfy the
    construction invariants, [Union] of the two in either order returns
    equal filters. *)
Theorem Union_symmetric (w : world) (p q : ptr) (f f2 : Filter) :
  heap w !! p = Some f → heap w !! q = Some f2 → wf f → wf f2 →
  m f = m f2 → keys f = keys f2 →
  ∃ o1 o2 w1 w2 g,
    Union p q w = Done (Ok o1, w1)
    ∧ Union q p w = Done (Ok o2, w2)
    ∧ heap w1 !! o1 = Some g
    ∧ heap w2 !! o2 = Some g.
Proof.
  intros Hp Hq Hwf Hwf2 Hm Hk. destruct w as [h l]. simpl in Hp, Hq.
  assert (Hc : compatible f f2 = true)
    by (apply bool_decide_eq_true_2; split; assumption).
  assert (Hc' : compatible f2 f = true)
    by (apply bool_decide_eq_true_2; split; congruence).
  exists (length h), (length h). eexists. eexists. exists (united f f2).
  split; [apply (Union_spec h l p q f f2 Hp Hq Hc (proj2 Hwf) (proj2 Hwf2))|].
  split; [apply (Union_spec h l q p f2 f Hq Hp Hc' (proj2 Hwf2) (proj2 Hwf))|].
  simpl. split; [apply list_lookup_middle; reflexivity|].
  replace (united f f2) with (united f2 f).
  - apply list_lookup_middle. reflexivity.
  - unfold united. rewrite zip_lor_comm, Hm, Hk. reflexivity.
Qed.

Lemma Union_symmetric_witness :
  ∃ o1 o2 w1 w2 g,
    Union 0%nat 1%nat two = Done (Ok o1, w1)
    ∧ Union 1%nat 0%nat two = Done (Ok o2, w2)
    ∧ heap w1 !! o1 = Some g
    ∧ heap w2 !! o2 = Some g.
Proof.
  apply (Union_symmetric two 0%nat 1%nat
           (mkFilter [16] [1] 64 1) (mkFilter [3] [1] 64 2));
    try reflexivity; split; simpl; (lia || reflexivity).
Defined.

(** X14 — The union of a filter with itself.  On any filter of the store
    [UnionInPlace(f, f)] returns [nil] and leaves the store as it is. *)
Theorem UnionInPlace_self (w : world) (p : ptr) (f : Filter) :
  heap w !! p = Some f →
  ∃ w', UnionInPlace p p w = Done (None, w') ∧ heap w' = heap w.
Proof.
  intros Hp. destruct w as [h l]. simpl in Hp.
  assert (Hc : compatible f f = true)
    by (apply bool_decide_eq_true_2; split; reflexivity).
  eexists. split; [apply (UnionInPlace_spec h l p p f f Hp Hp Hc eq_refl)|].
  simpl. rewrite zip_lor_diag, set_bits_id. apply list_insert_id. exact Hp.
Qed.

Lemma UnionInPlace_self_witness :
  ∃ w', UnionInPlace 1%nat 1%nat two = Done (None, w') ∧ heap w' = heap two.
Proof.
  apply (UnionInPlace_self two 1%nat (mkFilter [3] [1] 64 2)). reflexivity.
Defined.

(** X15 — [UnionInPlace] is idempotent.  For compatible filters that
    satisfy the construction invariants, merging the second filter into
    the first a second time changes no filter. *)
Theorem UnionInPlace_idempotent (w : world) (p q : ptr) (f f2 : Filter) :
  heap w !! p = Some f → heap w !! q = Some f2 → wf f → wf f2 →
  m f = m f2 → keys f = keys f2 →
  ∃ w1 w2,
    UnionInPlace p q w = Done (None, w1)
    ∧ UnionInPlace p q w1 = Done (None, w2)
    ∧ heap w2 = heap w1.
Proof.
  intros Hp Hq Hwf Hwf2 Hm Hk. destruct w as [h l]. simpl in Hp, Hq.
  assert (Hc : compatible f f2 = true)
    by (apply bool_decide_eq_true_2; split; assumption).
  assert (Hlen : length (bits f) = length (bits f2))
    by (destruct Hwf as [_ ->], Hwf2 as [_ ->]; congruence).
  set (f' := set_bits f (zip_with Z.lor (bits f) (bits f2))).
  assert (Hp' : <[p := f']> h !! p = Some f')
    by (eapply lookup_inserted; exact Hp).
  assert (Hq' : <[p := f']> h !! q = Some f2)
    by (apply merged_keeps_operand; assumption).
  assert (Hc' : compatible f' f2 = true)
    by (apply bool_decide_eq_true_2; split; assumption).
  assert (Hlen' : length (bits f') = length (bits f2))
    by (simpl; rewrite length_zip_with_l_eq by exact Hlen; exact Hlen).
  eexists. eexists.
  split; [apply (UnionInPlace_spec h l p q f f2 Hp Hq Hc Hlen)|].
  split; [apply (UnionInPlace_spec _ _ p q f' f2 Hp' Hq' Hc' Hlen')|].
  simpl. rewrite zip_lor_idem. apply list_insert_id. exact Hp'.
Qed.

Lemma UnionInPlace_idempotent_witness :
  ∃ w1 w2,
    UnionInPlace 0%nat 1%nat two = Done (None, w1)
    ∧ UnionInPlace 0%nat 1%nat w1 = Done (None, w2)
    ∧ heap w2 = heap w1.
Proof.
  apply (UnionInPlace_idempotent two 0%nat 1%nat
           (mkFilter [16] [1] 64 1) (mkFilter [3] [1] 64 2));
    try reflexivity; split; simpl; (lia || reflexivity).
Defined.

(** ** Errors of the union family *)

Lemma defer_Done_inv {A : Type} (d : Go unit) (body : Go A) w a w' :
  defer d body w = Done (a, w') →
  ∃ w1, body w = Done (a, w1) ∧ d w1 = Done (tt, w').
Proof.
  unfold defer. intros H.
  apply bind_Done_inv in H as (a' & w1 & Hb & H).
  apply bind_Done_inv in H as ([] & w2 & Hd & H).
  inversion H; subst. exists w1. split; assumption.
Qed.

Lemma RLock_Done_inv p w w' :
  RLock p w = Done (tt, w') →
  heap w' = heap w ∧ ∃ f, heap w !! p = Some f.
Proof.
  unfold RLock. intros H.
  apply bind_Done_inv in H as (f & w1 & H1 & H).
  apply deref_Done_inv in H1 as [-> Hf].
  inversion H; subst. split; [reflexivity|exists f; exact Hf].
Qed.

Lemma RUnlock_Done_inv p w w' :
  RUnlock p w = Done (tt, w') → heap w' = heap w.
Proof.
  unfold RUnlock. intros H.
  apply bind_Done_inv in H as (f & w1 & H1 & H).
  apply deref_Done_inv in H1 as [-> Hf].
  inversion H; subst. reflexivity.
Qed.

(** What [verifyCompatible] answers when it returns an error value. *)
Lemma verifyCompatible_Some_inv p q w e w' :
  verifyCompatible p q w = Done (Some e, w') →
  heap w' = heap w
  ∧ ∃ f f2, heap w !! p = Some f ∧ heap w !! q = Some f2
            ∧ compatible f f2 = false
            ∧ e = errIncompatible (diagnostic f f2).
Proof.
  intros H. destruct w as [h l].
  assert (Hpq : ∃ f f2, h !! p = Some f ∧ h !! q = Some f2).
  { unfold verifyCompatible in H.
    apply bind_Done_inv in H as ([] & w1 & H1 & H).
    apply RLock_Done_inv in H1 as [E1 [f Hf]].
    apply defer_Done_inv in H as (w2 & H & _).
    apply bind_Done_inv in H as ([] & w3 & H3 & _).
    apply RLock_Done_inv in H3 as [_ [f2 Hf2]].
    rewrite E1 in Hf2. exists f, f2. split; assumption. }
  destruct Hpq as (f & f2 & Hp & Hq).
  destruct (compatible f f2) eqn:Hc.
  - rewrite (verifyCompatible_nil h l p q f f2 Hp Hq Hc) in H. discriminate.
  - destruct (le_lt_dec (length (keys f)) (length (keys f2))) as [Hl|Hl].
    + rewrite (verifyCompatible_error h l p q f f2 Hp Hq Hc Hl) in H.
      inversion H; subst. split; [reflexivity|].
      exists f, f2. repeat split; assumption.
    + rewrite (verifyCompatible_panic h l p q f f2 Hp Hq Hl) in H.
      discriminate.
Qed.

(** X16 — The three outcomes of [verifyCompatible].  On two filters of
    the store: it returns [nil] when they are compatible; it returns an
    [errIncompatible] when they are not and the first has no more keys
    than the second; it panics when the first has more keys than the
    second.  It never changes the store. *)
Theorem verifyCompatible_outcomes (w : world) (p q : ptr) (f f2 : Filter) :
  heap w !! p = Some f → heap w !! q = Some f2 →
  (m f = m f2 ∧ keys f = keys f2 →
   ∃ w', verifyCompatible p q w = Done (None, w') ∧ heap w' = heap w)
  ∧ (¬ (m f = m f2 ∧ keys f = keys f2) →
     (length (keys f) ≤ length (keys f2))%nat →
     ∃ e w', verifyCompatible p q w = Done (Some e, w')
             ∧ Is e = true ∧ heap w' = heap w)
  ∧ ((length (keys f2) < length (keys f))%nat →
     verifyCompatible p q w = Panic).
Proof.
  intros Hp Hq. destruct w as [h l]. simpl in Hp, Hq. split; [|split].
  - intros Hc. eexists. split.
    + apply (verifyCompatible_nil h l p q f f2 Hp Hq).
      apply bool_decide_eq_true_2. exact Hc.
    + reflexivity.
  - intros Hc Hl. eexists. eexists. split.
    + apply (verifyCompatible_error h l p q f f2 Hp Hq); [|exact Hl].
      apply bool_decide_eq_false_2. exact Hc.
    + split; reflexivity.
  - intros Hl. apply (verifyCompatible_panic h l p q f f2 Hp Hq Hl).
Qed.

Lemma verifyCompatible_outcomes_witness :
  (64 = 128 ∧ [1] = [1] →
   ∃ w', verifyCompatible 0%nat 1%nat other_size = Done (None, w')
         ∧ heap w' = heap other_size)
  ∧ (¬ (64 = 128 ∧ [1] = [1]) →
     (length [1] ≤ length [1])%nat →
     ∃ e w', verifyCompatible 0%nat 1%nat other_size = Done (Some e, w')
             ∧ Is e = true ∧ heap w' = heap other_size)
  ∧ ((length [1] < length [1])%nat →
     verifyCompatible 0%nat 1%nat other_size = Panic).
Proof.
  apply (verifyCompatible_outcomes other_size 0%nat 1%nat
           (mkFilter [0] [1] 64 0) (mkFilter [0; 0] [1] 128 0));
    reflexivity.
Defined.

(** X17 — A failed [UnionInPlace] merges nothing.  Whenever
    [UnionInPlace] returns an error, in any world, the error is an
    [errIncompatible] (it matches [ErrIncompatible] under [Is]), the two
    filters are incompatible, and the store is exactly as it was. *)
Theorem UnionInPlace_error_keeps_store (w w' : world) (p q : ptr) (e : error) :
  UnionInPlace p q w = Done (Some e, w') →
  heap w' = heap w
  ∧ Is e = true
  ∧ ∃ f f2, heap w !! p = Some f ∧ heap w !! q = Some f2
            ∧ ¬ (m f = m f2 ∧ keys f = keys f2).
Proof.
  intros H. unfold UnionInPlace in H.
  apply bind_Done_inv in H as ([] & w1 & H1 & H).
  apply RLock_Done_inv in H1 as [E1 _].
  apply defer_Done_inv in H as (w2 & H & U2).
  apply RUnlock_Done_inv in U2.
  apply bind_Done_inv in H as ([] & w3 & H3 & H).
  apply RLock_Done_inv in H3 as [E3 _].
  apply defer_Done_inv in H as (w4 & H & U4).
  apply RUnlock_Done_inv in U4.
  apply bind_Done_inv in H as (err & w5 & Hv & H).
  destruct err as [e0|].
  - inversion H; subst.
    apply verifyCompatible_Some_inv in Hv as (E5 & f & f2 & Hp & Hq & Hc & ->).
    split; [congruence|]. split; [reflexivity|].
    exists f, f2. rewrite E3, E1 in Hp, Hq.
    repeat split; try assumption.
    apply bool_decide_eq_false_1 in Hc. exact Hc.
  - apply bind_Done_inv in H as (g & w6 & _ & H).
    apply bind_Done_inv in H as ([] & w7 & _ & H).
    inversion H.
Qed.

Lemma UnionInPlace_error_keeps_store_witness :
  heap (mkWorld (heap other_size) (union_events 0%nat 1%nat)) = heap other_size
  ∧ Is (errIncompatible ["M=1 and M=1"; ""; ""]) = true
  ∧ ∃ f f2, heap other_size !! 0%nat = Some f
            ∧ heap other_size !! 1%nat = Some f2
            ∧ ¬ (m f = m f2 ∧ keys f = keys f2).
Proof.
  apply (UnionInPlace_error_keeps_store other_size
           (mkWorld (heap other_size) (union_events 0%nat 1%nat))
           0%nat 1%nat (errIncompatible ["M=1 and M=1"; ""; ""])).
  reflexivity.
Defined.

(** X18 — The message for a missing key.  When two filters of one size
    differ only in that the second has further keys after those of the
    first, [UnionInPlace] returns an error whose message is the fixed
    prefix followed by the two key counts, and nothing else. *)
Theorem key_count_message (w : world) (p q : ptr) (f f2 : Filter) :
  heap w !! p = Some f → heap w !! q = Some f2 →
  m f = m f2 →
  (length (keys f) < length (keys f2))%nat →
  keys f = take (length (keys f)) (keys f2) →
  ∃ e w',
    UnionInPlace p q w = Done (Some e, w')
    ∧ Error e
      = "Cannot perform union on two incompatible Bloom filters: "
        +:+ "K=" +:+ pretty (Z.of_nat (length (keys f)))
        +:+ " and K=" +:+ pretty (Z.of_nat (length (keys f2))).
Proof.
  intros Hp Hq Hm Hl Hk. destruct w as [h l]. simpl in Hp, Hq.
  assert (Hc : compatible f f2 = false).
  { apply bool_decide_eq_false_2. intros [_ E]. rewrite E in Hl. lia. }
  eexists. eexists.
  split; [apply (UnionInPlace_error h l p q f f2 Hp Hq Hc); lia|].
  unfold diagnostic. rewrite Hm, Z.eqb_refl. simpl negb.
  destruct (Z.eqb_spec (Z.of_nat (length (keys f))) (Z.of_nat (length (keys f2))))
    as [E|_]; [lia|]. simpl negb.
  assert (Hz : fold_left Z.lor (zip_with Z.lxor (keys f) (keys f2)) 0 = 0).
  { apply fold_lor_zero. split; [reflexivity|].
    apply zip_lxor_prefix; [lia|exact Hk]. }
  rewrite Hz. reflexivity.
Qed.

Lemma key_count_message_witness :
  ∃ e w',
    UnionInPlace 1%nat 0%nat fewer_keys = Done (Some e, w')
    ∧ Error e
      = "Cannot perform union on two incompatible Bloom filters: "
        +:+ "K=" +:+ pretty (Z.of_nat (length [1]))
        +:+ " and K=" +:+ pretty (Z.of_nat (length [1; 2])).
Proof.
  apply (key_count_message fewer_keys 1%nat 0%nat
           (mkFilter [0] [1] 64 0) (mkFilter [0] [1; 2] 64 0));
    try reflexivity. simpl. lia.
Defined.

(** ** Invariants of the store

    [keeps I c]: when [c] returns from a world that satisfies [I], the
    world it ends in satisfies [I].  The rules below follow the structure
    of the operations; what an invariant has to provide is how the atomic
    writes ([Or], [Store], the counter) and the allocation act on it. *)

Definition keeps (I : world → Prop) {A : Type} (c : Go A) : Prop :=
  ∀ w a w', c w = Done (a, w') → I w → I w'.

Section Keeps.
Variable I : world → Prop.

Lemma keeps_ret {A : Type} (a : A) : keeps I (mret a : Go A).
Proof. intros w a' w' H. inversion H; subst. tauto. Qed.

Lemma keeps_bind {A B : Type} (c : Go A) (k : A → Go B) :
  keeps I c → (∀ a, keeps I (k a)) → keeps I (c ≫= k).
Proof.
  intros Hc Hk w b w' H HI. apply bind_Done_inv in H as (a & w1 & H1 & H2).
  eapply Hk; [exact H2|]. eapply Hc; eassumption.
Qed.

Lemma keeps_bind_post {A B : Type} (Q : A → Prop) (c : Go A) (k : A → Go B) :
  (∀ w a w', c w = Done (a, w') → I w → Q a) →
  keeps I c → (∀ a, Q a → keeps I (k a)) → keeps I (c ≫= k).
Proof.
  intros HQ Hc Hk w b w' H HI. apply bind_Done_inv in H as (a & w1 & H1 & H2).
  eapply Hk; [eapply HQ; eassumption|exact H2|]. eapply Hc; eassumption.
Qed.

Lemma keeps_deref p : keeps I (deref p).
Proof. intros w f w' H. apply deref_Done_inv in H as [-> _]. tauto. Qed.

Lemma keeps_index {A : Type} (l : list A) i : keeps I (index l i).
Proof. intros w f w' H. apply index_Done_inv in H as [-> _]. tauto. Qed.

Lemma keeps_rem x y : keeps I (rem x y).
Proof. intros w f w' H. apply rem_Done_inv in H as [-> _]. tauto. Qed.

Lemma keeps_range {A : Type} (l : list A) (body : A → Go unit) :
  (∀ x, keeps I (body x)) → keeps I (range l body).
Proof.
  intros Hb. induction l as [|x t IH]; simpl.
  - apply keeps_ret.
  - apply keeps_bind; [apply Hb|intros _; exact IH].
Qed.

Lemma keeps_rangeVar {A S : Type} (l : list A) (s : S) (body : S → A → Go S) :
  (∀ s x, keeps I (body s x)) → keeps I (rangeVar l s body).
Proof.
  intros Hb. revert s. induction l as [|x t IH]; intros s; simpl.
  - apply keeps_ret.
  - apply keeps_bind; [apply Hb|intros s'; apply IH].
Qed.

Lemma keeps_defer {A : Type} (d : Go unit) (body : Go A) :
  keeps I body → keeps I d → keeps I (defer d body).
Proof.
  intros Hb Hd. unfold defer. apply keeps_bind; [exact Hb|intros a].
  apply keeps_bind; [exact Hd|intros _; apply keeps_ret].
Qed.

Create HintDb keeps.

Hint Resolve keeps_ret keeps_bind keeps_deref keeps_index keeps_rem
  keeps_range keeps_rangeVar keeps_defer : keeps.
Hint Extern 1 (keeps _ (if ?b then _ else _)) => destruct b : keeps.
Hint Extern 1 (keeps _ (match ?r with Ok _ => _ | Err _ => _ end)) =>
  destruct r : keeps.
Hint Extern 1 (keeps _ (match ?r with Some _ => _ | None => _ end)) =>
  destruct r : keeps.

(** *** Operations that only read *)

Hypothesis I_log : ∀ h l l', I (mkWorld h l) → I (mkWorld h l').

Lemma keeps_emit e : keeps I (emit e).
Proof.
  intros [h l] a w' H HI. inversion H; subst. eapply I_log. exact HI.
Qed.

Hint Resolve keeps_emit : keeps.

Lemma keeps_RLock p : keeps I (RLock p).
Proof. unfold RLock. auto with keeps nocore. Qed.

Lemma keeps_RUnlock p : keeps I (RUnlock p).
Proof. unfold RUnlock. auto with keeps nocore. Qed.

Lemma keeps_Lock p : keeps I (Lock p).
Proof. unfold Lock. auto with keeps nocore. Qed.

Lemma keeps_Unlock p : keeps I (Unlock p).
Proof. unfold Unlock. auto with keeps nocore. Qed.

Lemma keeps_bits_Load p i : keeps I (bits_Load p i).
Proof. unfold bits_Load. auto with keeps nocore. Qed.

Lemma keeps_n_Load p : keeps I (n_Load p).
Proof. unfold n_Load. auto with keeps nocore. Qed.

Lemma keeps_hash p v : keeps I (hash p v).
Proof. unfold hash. auto with keeps nocore. Qed.

Lemma keeps_M p : keeps I (M p).
Proof. unfold M. auto with keeps nocore. Qed.

Lemma keeps_K p : keeps I (K p).
Proof. unfold K. auto with keeps nocore. Qed.

Hint Resolve keeps_RLock keeps_RUnlock keeps_Lock keeps_Unlock
  keeps_bits_Load keeps_n_Load keeps_hash keeps_M keeps_K : keeps.

Lemma keeps_N p : keeps I (N p).
Proof. unfold N. auto with keeps nocore. Qed.

Lemma keeps_noBranchCompareUint64s b0 b1 :
  keeps I (noBranchCompareUint64s b0 b1).
Proof. unfold noBranchCompareUint64s. auto 20 with keeps nocore. Qed.

Hint Resolve keeps_N keeps_noBranchCompareUint64s : keeps.

Lemma keeps_isCompatible p q : keeps I (isCompatible p q).
Proof. unfold isCompatible. auto 40 with keeps nocore. Qed.

Hint Resolve keeps_isCompatible : keeps.

Lemma keeps_IsCompatible p q : keeps I (IsCompatible p q).
Proof. unfold IsCompatible. auto 40 with keeps nocore. Qed.

Lemma keeps_verifyCompatible p q : keeps I (verifyCompatible p q).
Proof. unfold verifyCompatible. auto 60 with keeps nocore. Qed.

Lemma keeps_getBits p : keeps I (getBits p).
Proof. unfold getBits. auto 40 with keeps nocore. Qed.

Lemma keeps_Contains p v : keeps I (Contains p v).
Proof. unfold Contains. auto 40 with keeps nocore. Qed.

Lemma keeps_FalsePosititveProbability p :
  keeps I (FalsePosititveProbability p).
Proof. unfold FalsePosititveProbability. auto 40 with keeps nocore. Qed.

Hint Resolve keeps_IsCompatible keeps_verifyCompatible keeps_getBits
  keeps_Contains : keeps.

(** *** Operations that write *)

Variables okOr okStore okN : ptr → Prop.
Hypothesis I_or : ∀ p i v, okOr p → keeps I (bits_Or p i v).
Hypothesis I_store : ∀ p i v, okStore p → keeps I (bits_Store p i v).
Hypothesis I_n_Add : ∀ p d, okN p → keeps I (n_Add p d).
Hypothesis I_n_Store : ∀ p v, okN p → keeps I (n_Store p v).
Hypothesis I_new : ∀ p, keeps I (NewCompatible p).
Hypothesis I_fresh : ∀ p w out w',
  NewCompatible p w = Done (Ok out, w') → I w → okStore out ∧ okN out.

Hint Resolve I_or I_store I_n_Add I_n_Store I_new : keeps.

Lemma keeps_Add p v : okOr p → okN p → keeps I (Add p v).
Proof. intros H1 H2. unfold Add. auto 40 with keeps nocore. Qed.

Lemma keeps_AddC p v : okOr p → okN p → keeps I (AddC p v).
Proof. intros H1 H2. unfold AddC. auto 40 with keeps nocore. Qed.

Lemma keeps_UnionInPlace p q : okOr p → keeps I (UnionInPlace p q).
Proof. intros H1. unfold UnionInPlace. auto 60 with keeps nocore. Qed.

Lemma keeps_setBits p b : okStore p → keeps I (setBits p b).
Proof. intros H1. unfold setBits. auto 40 with keeps nocore. Qed.

Hint Resolve keeps_setBits : keeps.

Lemma keeps_Union p q : keeps I (Union p q).
Proof.
  unfold Union. apply keeps_bind; [auto with keeps nocore|intros _].
  apply keeps_defer; [|auto with keeps nocore].
  apply keeps_bind; [auto with keeps nocore|intros _].
  apply keeps_defer; [|auto with keeps nocore].
  apply keeps_bind; [auto with keeps nocore|intros [e|]];
    [auto with keeps nocore|].
  apply (keeps_bind_post (λ r, ∀ out, r = Ok out → okStore out ∧ okN out)).
  - intros w a w' H HI out ->. eapply I_fresh; eassumption.
  - apply I_new.
  - intros [out|e] HQ; [|auto with keeps nocore].
    destruct (HQ out eq_refl) as [H1 H2]. auto 40 with keeps nocore.
Qed.

Lemma keeps_Copy p : keeps I (Copy p).
Proof.
  unfold Copy.
  apply (keeps_bind_post (λ r, ∀ out, r = Ok out → okStore out ∧ okN out)).
  - intros w a w' H HI out ->. eapply I_fresh; eassumption.
  - apply I_new.
  - intros [out|e] HQ; [|auto with keeps nocore].
    destruct (HQ out eq_refl) as [H1 H2]. auto 40 with keeps nocore.
Qed.

End Keeps.

(** What the atomic writes do when they return. *)

Lemma bits_Or_Done_inv p i v w w' :
  bits_Or p i v w = Done (tt, w') →
  ∃ f x, heap w !! p = Some f ∧ bits f !! Z.to_nat i = Some x
         ∧ w' = mkWorld
                  (<[p := set_bits f (<[Z.to_nat i := Z.lor x v]> (bits f))]> (heap w))
                  (log w).
Proof.
  unfold bits_Or. intros H.
  apply bind_Done_inv in H as (f & w1 & H1 & H).
  apply deref_Done_inv in H1 as [-> Hf].
  apply bind_Done_inv in H as (x & w1 & H1 & H).
  apply index_Done_inv in H1 as (-> & _ & Hx).
  inversion H; subst. exists f, x. repeat split; assumption.
Qed.

Lemma bits_Store_Done_inv p i v w w' :
  bits_Store p i v w = Done (tt, w') →
  ∃ f, heap w !! p = Some f
       ∧ w' = mkWorld (<[p := set_bits f (<[Z.to_nat i := v]> (bits f))]> (heap w))
                      (log w).
Proof.
  unfold bits_Store. intros H.
  apply bind_Done_inv in H as (f & w1 & H1 & H).
  apply deref_Done_inv in H1 as [-> Hf].
  apply bind_Done_inv in H as (x & w1 & H1 & H).
  apply index_Done_inv in H1 as (-> & _ & Hx).
  inversion H; subst. exists f. repeat split; assumption.
Qed.

Lemma n_Add_Done_inv p d w w' :
  n_Add p d w = Done (tt, w') →
  ∃ f, heap w !! p = Some f
       ∧ w' = mkWorld (<[p := set_n f (wrap64 (n f + d))]> (heap w)) (log w).
Proof.
  unfold n_Add. intros H.
  apply bind_Done_inv in H as (f & w1 & H1 & H).
  apply deref_Done_inv in H1 as [-> Hf].
  inversion H; subst. exists f. repeat split; assumption.
Qed.

Lemma n_Store_Done_inv p v w w' :
  n_Store p v w = Done (tt, w') →
  ∃ f, heap w !! p = Some f
       ∧ w' = mkWorld (<[p := set_n f v]> (heap w)) (log w).
Proof.
  unfold n_Store. intros H.
  apply bind_Done_inv in H as (f & w1 & H1 & H).
  apply deref_Done_inv in H1 as [-> Hf].
  inversion H; subst. exists f. repeat split; assumption.
Qed.

(** *** Reading never writes *)

(** X19 — The read operations leave the store alone.  In any world,
    whenever [Contains], [IsCompatible], [N], [M], [K] or
    [FalsePosititveProbability] returns, every filter of the store is
    exactly as it was. *)
Theorem reads_keep_store (w w' : world) :
  (∀ p v b, Contains p v w = Done (b, w') → heap w' = heap w)
  ∧ (∀ p q b, IsCompatible p q w = Done (b, w') → heap w' = heap w)
  ∧ (∀ p x, N p w = Done (x, w') → heap w' = heap w)
  ∧ (∀ p x, M p w = Done (x, w') → heap w' = heap w)
  ∧ (∀ p x, K p w = Done (x, w') → heap w' = heap w)
  ∧ (∀ p x, FalsePosititveProbability p w = Done (x, w') → heap w' = heap w).
Proof.
  assert (Hlog : ∀ h l l',
            (λ x, heap x = heap w) (mkWorld h l) →
            (λ x, heap x = heap w) (mkWorld h l'))
    by (intros h l l' H; exact H).
  repeat split.
  - intros p v b H. exact (keeps_Contains (λ y, heap y = heap w) Hlog p v w b w' H eq_refl).
  - intros p q b H. exact (keeps_IsCompatible (λ y, heap y = heap w) Hlog p q w b w' H eq_refl).
  - intros p x H. exact (keeps_N (λ y, heap y = heap w) p w x w' H eq_refl).
  - intros p x H. exact (keeps_M (λ y, heap y = heap w) p w x w' H eq_refl).
  - intros p x H. exact (keeps_K (λ y, heap y = heap w) p w x w' H eq_refl).
  - intros p x H.
    exact (keeps_FalsePosititveProbability (λ y, heap y = heap w) p w x w' H eq_refl).
Qed.

Lemma reads_keep_store_witness :
  heap (mkWorld (heap two) [EvRLock 0%nat; EvRUnlock 0%nat]) = heap two.
Proof.
  apply (proj1 (reads_keep_store two
                  (mkWorld (heap two) [EvRLock 0%nat; EvRUnlock 0%nat]))
           0%nat 5 true).
  reflexivity.
Defined.

(** X20 — [Contains] on an empty filter.  On a filter that satisfies the
    construction invariants, has at least one key and has no bit set,
    [Contains] returns false for every raw hash. *)
Theorem Contains_empty (w : world) (p : ptr) (f : Filter) (v : Z) :
  heap w !! p = Some f → wf f → keys f ≠ [] →
  Forall (λ x, x = 0) (bits f) →
  ∃ w', Contains p v w = Done (false, w').
Proof.
  intros Hp Hwf Hk Hz. destruct w as [h l]. simpl in Hp.
  eexists. rewrite (Contains_spec h l p f v Hp Hwf). f_equal. f_equal.
  destruct (keys f) as [|key ks] eqn:E; [contradiction|].
  unfold targets. rewrite E. simpl. apply andb_false_intro1.
  unfold getBit.
  destruct (bits f !! Z.to_nat ((Z.lxor v key mod m f) ≫ 6)) as [x|] eqn:Ex;
    [|reflexivity].
  rewrite Forall_forall in Hz.
  rewrite (Hz x) by (eapply list_elem_of_lookup_2; exact Ex).
  apply Z.bits_0.
Qed.

Lemma Contains_empty_witness :
  ∃ w', Contains 0%nat 12345 demo = Done (false, w').
Proof.
  apply (Contains_empty demo 0%nat (mkFilter [0] [1] 64 0) 12345).
  - reflexivity.
  - split; [simpl; lia|reflexivity].
  - discriminate.
  - repeat constructor.
Defined.

(** *** The construction invariants *)

Lemma wf_set_bits f b : wf f → length b = length (bits f) → wf (set_bits f b).
Proof. intros [H1 H2] Hl. split; [exact H1|]. simpl. congruence. Qed.

Lemma wf_set_n f c : wf f → wf (set_n f c).
Proof. intros H. exact H. Qed.

Lemma wf_sibling f : wf f → wf (sibling f).
Proof.
  intros [H1 _]. split; [exact H1|]. simpl. apply length_replicate.
Qed.

Definition all_wf (w : world) : Prop := Forall wf (heap w).

Lemma all_wf_update w p f f' :
  all_wf w → heap w !! p = Some f → (wf f → wf f') →
  all_wf (mkWorld (<[p := f']> (heap w)) (log w)).
Proof.
  intros Hall Hp Hf. unfold all_wf. simpl. apply Forall_insert; [exact Hall|].
  apply Hf. eapply Forall_lookup_1; eassumption.
Qed.

Lemma keeps_wf_exec c : keeps all_wf (exec c).
Proof.
  assert (Hlog : ∀ h l l', all_wf (mkWorld h l) → all_wf (mkWorld h l'))
    by (intros h l l' H; exact H).
  assert (Hor : ∀ p i v, True → keeps all_wf (bits_Or p i v)).
  { intros p i v _ w [] w' H HI.
    apply bits_Or_Done_inv in H as (f & x & Hf & _ & ->).
    eapply all_wf_update; [exact HI|exact Hf|]. intros Hw.
    apply wf_set_bits; [exact Hw|apply length_insert]. }
  assert (Hst : ∀ p i v, True → keeps all_wf (bits_Store p i v)).
  { intros p i v _ w [] w' H HI.
    apply bits_Store_Done_inv in H as (f & Hf & ->).
    eapply all_wf_update; [exact HI|exact Hf|]. intros Hw.
    apply wf_set_bits; [exact Hw|apply length_insert]. }
  assert (Hna : ∀ p d, True → keeps all_wf (n_Add p d)).
  { intros p d _ w [] w' H HI.
    apply n_Add_Done_inv in H as (f & Hf & ->).
    eapply all_wf_update; [exact HI|exact Hf|]. apply wf_set_n. }
  assert (Hns : ∀ p v, True → keeps all_wf (n_Store p v)).
  { intros p v _ w [] w' H HI.
    apply n_Store_Done_inv in H as (f & Hf & ->).
    eapply all_wf_update; [exact HI|exact Hf|]. apply wf_set_n. }
  assert (Hnew : ∀ p, keeps all_wf (NewCompatible p)).
  { intros p w r w' H HI.
    apply NewCompatible_Done_inv in H as (f & Hf & _ & ->).
    unfold all_wf. simpl. apply Forall_app. split; [exact HI|].
    constructor; [|constructor]. apply wf_sibling.
    eapply Forall_lookup_1; eassumption. }
  assert (Hfresh : ∀ p w out w',
            NewCompatible p w = Done (Ok out, w') → all_wf w → True ∧ True)
    by (intros; split; exact Logic.I).
  destruct c; simpl.
  - apply (keeps_Add _ Hlog _ _ Hor Hna); exact Logic.I.
  - apply keeps_bind; [|intros; apply keeps_ret].
    apply (keeps_AddC _ Hlog _ _ Hor Hna); exact Logic.I.
  - apply keeps_bind; [|intros; apply keeps_ret].
    apply (keeps_Contains _ Hlog).
  - apply keeps_bind; [|intros; apply keeps_ret].
    apply (keeps_IsCompatible _ Hlog).
  - apply keeps_bind; [|intros; apply keeps_ret].
    apply (keeps_Copy _ Hlog _ _ Hst Hns Hnew Hfresh).
  - apply keeps_bind; [|intros; apply keeps_ret].
    apply (keeps_UnionInPlace _ Hlog _ Hor). exact Logic.I.
  - apply keeps_bind; [|intros; apply keeps_ret].
    apply (keeps_Union _ Hlog _ _ Hst Hnew Hfresh).
Qed.

(** X21 — The construction invariants are kept.  When every filter of
    the store has [m >= 1] and [ceil(m/64)] words, the same holds after
    any sequence of calls on the exported operations that returns: of the
    filters that existed and of those that [Copy] and [Union] allocated. *)
Theorem invariants_kept (cs : list call) (w w' : world) :
  execs cs w = Done (tt, w') →
  Forall wf (heap w) → Forall wf (heap w').
Proof.
  intros H HI.
  exact (keeps_range all_wf cs exec keeps_wf_exec w tt w' H HI).
Qed.

Lemma invariants_kept_witness : Forall wf (heap after_calls).
Proof.
  apply (invariants_kept some_calls two after_calls).
  - vm_compute. reflexivity.
  - repeat constructor; simpl; lia.
Defined.

(** *** The insertion counter *)

(** The filter at [p] exists and its counter is [c]. *)
Definition has_n (p : ptr) (c : Z) (w : world) : Prop :=
  ∃ f, heap w !! p = Some f ∧ n f = c.

Definition inserts_into (p : ptr) (c : call) : bool :=
  match c with
  | CallAdd q _ | CallAddC q _ => Nat.eqb q p
  | _ => false
  end.

(** Number of [Add] and [AddC] calls on [p] in a sequence of calls. *)
Fixpoint insertions (p : ptr) (cs : list call) : Z :=
  match cs with
  | [] => 0
  | c :: t => (if inserts_into p c then 1 else 0) + insertions p t
  end.

Lemma has_n_update p c w q f f' :
  has_n p c w → heap w !! q = Some f → (q = p → n f' = n f) →
  has_n p c (mkWorld (<[q := f']> (heap w)) (log w)).
Proof.
  intros (g & Hg & Hn) Hq Hf. unfold has_n. simpl.
  destruct (decide (q = p)) as [->|Hne].
  - exists f'. split; [eapply lookup_inserted; exact Hq|].
    rewrite Hq in Hg. inversion Hg; subst g. rewrite Hf by reflexivity.
    exact Hn.
  - exists g. rewrite list_lookup_insert_ne by exact Hne. split; assumption.
Qed.

Section Counter.
Variables (p0 : ptr) (c0 : Z).

Lemma has_n_log : ∀ h l l',
  has_n p0 c0 (mkWorld h l) → has_n p0 c0 (mkWorld h l').
Proof. intros h l l' H. exact H. Qed.

Lemma has_n_Or : ∀ p i v, True → keeps (has_n p0 c0) (bits_Or p i v).
Proof.
  intros p i v _ w [] w' H HI.
  apply bits_Or_Done_inv in H as (f & x & Hf & _ & ->).
  eapply has_n_update; [exact HI|exact Hf|reflexivity].
Qed.

Lemma has_n_Store : ∀ p i v, True → keeps (has_n p0 c0) (bits_Store p i v).
Proof.
  intros p i v _ w [] w' H HI.
  apply bits_Store_Done_inv in H as (f & Hf & ->).
  eapply has_n_update; [exact HI|exact Hf|reflexivity].
Qed.

Lemma has_n_n_Add : ∀ p d, p ≠ p0 → keeps (has_n p0 c0) (n_Add p d).
Proof.
  intros p d Hne w [] w' H HI.
  apply n_Add_Done_inv in H as (f & Hf & ->).
  eapply has_n_update; [exact HI|exact Hf|]. intros E. contradiction.
Qed.

Lemma has_n_n_Store : ∀ p v, p ≠ p0 → keeps (has_n p0 c0) (n_Store p v).
Proof.
  intros p v Hne w [] w' H HI.
  apply n_Store_Done_inv in H as (f & Hf & ->).
  eapply has_n_update; [exact HI|exact Hf|]. intros E. contradiction.
Qed.

Lemma has_n_new : ∀ p, keeps (has_n p0 c0) (NewCompatible p).
Proof.
  intros p w r w' H (g & Hg & Hn).
  apply NewCompatible_Done_inv in H as (f & Hf & _ & ->).
  exists g. split; [|exact Hn]. simpl. apply lookup_app_l_Some. exact Hg.
Qed.

Lemma has_n_fresh : ∀ p w out w',
  NewCompatible p w = Done (Ok out, w') → has_n p0 c0 w → True ∧ out ≠ p0.
Proof.
  intros p w out w' H (g & Hg & _).
  apply NewCompatible_Done_inv in H as (f & Hf & E & _).
  inversion E; subst out. split; [exact Logic.I|].
  apply lookup_lt_Some in Hg. lia.
Qed.

(** A call that is no insertion into [p0] keeps its counter. *)
Lemma has_n_exec_other c :
  inserts_into p0 c = false → keeps (has_n p0 c0) (exec c).
Proof.
  intros Hc. destruct c; simpl in *.
  - apply (keeps_Add _ has_n_log _ _ has_n_Or has_n_n_Add); [exact Logic.I|].
    intros ->. rewrite Nat.eqb_refl in Hc. discriminate.
  - apply keeps_bind; [|intros; apply keeps_ret].
    apply (keeps_AddC _ has_n_log _ _ has_n_Or has_n_n_Add); [exact Logic.I|].
    intros ->. rewrite Nat.eqb_refl in Hc. discriminate.
  - apply keeps_bind; [|intros; apply keeps_ret].
    apply (keeps_Contains _ has_n_log).
  - apply keeps_bind; [|intros; apply keeps_ret].
    apply (keeps_IsCompatible _ has_n_log).
  - apply keeps_bind; [|intros; apply keeps_ret].
    apply (keeps_Copy _ has_n_log _ _ has_n_Store has_n_n_Store has_n_new
             has_n_fresh).
  - apply keeps_bind; [|intros; apply keeps_ret].
    apply (keeps_UnionInPlace _ has_n_log _ has_n_Or). exact Logic.I.
  - apply keeps_bind; [|intros; apply keeps_ret].
    apply (keeps_Union _ has_n_log _ _ has_n_Store has_n_new has_n_fresh).
Qed.

(** The counter after the atomic increment. *)
Lemma has_n_increment w w' :
  n_Add p0 1 w = Done (tt, w') → has_n p0 c0 w →
  has_n p0 (wrap64 (c0 + 1)) w'.
Proof.
  intros H (g & Hg & Hn).
  apply n_Add_Done_inv in H as (f & Hf & ->).
  rewrite Hf in Hg. inversion Hg; subst g.
  exists (set_n f (wrap64 (n f + 1))). split.
  - simpl. eapply lookup_inserted. exact Hf.
  - simpl. rewrite Hn. reflexivity.
Qed.

Lemma has_n_Add_self v w w' :
  Add p0 v w = Done (tt, w') → has_n p0 c0 w →
  has_n p0 (wrap64 (c0 + 1)) w'.
Proof.
  intros H HI. unfold Add in H.
  apply bind_Done_inv in H as (h & w1 & H1 & H).
  apply (keeps_hash _ _ _ _ _ _ H1) in HI.
  apply bind_Done_inv in H as ([] & w2 & H2 & H).
  apply (keeps_RLock _ has_n_log _ _ _ _ H2) in HI.
  apply defer_Done_inv in H as (w3 & H & H3).
  apply bind_Done_inv in H as ([] & w4 & H4 & H).
  assert (HI4 : has_n p0 c0 w4).
  { revert HI. eapply keeps_range; [|exact H4]. intros i.
    apply keeps_bind; [apply keeps_M|intros fm].
    apply keeps_bind; [apply keeps_rem|intros j].
    apply has_n_Or. exact Logic.I. }
  apply (has_n_increment _ _ H) in HI4.
  destruct w3 as [h3 l3]. unfold RUnlock in H3.
  apply bind_Done_inv in H3 as (g & w5 & H5 & H3).
  apply deref_Done_inv in H5 as [-> _]. inversion H3; subst. exact HI4.
Qed.

Lemma has_n_AddC_self v b w w' :
  AddC p0 v w = Done (b, w') → has_n p0 c0 w →
  has_n p0 (wrap64 (c0 + 1)) w'.
Proof.
  intros H HI. unfold AddC in H.
  apply bind_Done_inv in H as (h & w1 & H1 & H).
  apply (keeps_hash _ _ _ _ _ _ H1) in HI.
  apply bind_Done_inv in H as ([] & w2 & H2 & H).
  apply (keeps_RLock _ has_n_log _ _ _ _ H2) in HI.
  apply bind_Done_inv in H as ([] & w3 & H3 & H).
  apply (keeps_RUnlock _ has_n_log _ _ _ _ H3) in HI.
  apply bind_Done_inv in H as (r & w4 & H4 & H).
  assert (HI4 : has_n p0 c0 w4).
  { revert HI. eapply keeps_rangeVar; [|exact H4]. intros s i.
    apply keeps_bind; [apply keeps_M|intros fm].
    apply keeps_bind; [apply keeps_rem|intros j].
    apply keeps_bind; [apply keeps_bits_Load|intros x].
    apply keeps_bind; [apply has_n_Or; exact Logic.I|intros _].
    apply keeps_ret. }
  apply bind_Done_inv in H as ([] & w5 & H5 & H).
  apply (has_n_increment _ _ H5) in HI4.
  inversion H; subst. exact HI4.
Qed.

End Counter.

Lemma wrap64_range x : 0 ≤ wrap64 x < 2 ^ 64.
Proof. unfold wrap64. apply Z.mod_pos_bound. reflexivity. Qed.

Lemma insertions_count p cs : ∀ c w w',
  execs cs w = Done (tt, w') → has_n p c w → 0 ≤ c < 2 ^ 64 →
  has_n p ((c + insertions p cs) mod 2 ^ 64) w'.
Proof.
  induction cs as [|call t IH]; intros c w w' H HI Hc; simpl in *.
  - inversion H; subst. rewrite Z.add_0_r, Z.mod_small by exact Hc. exact HI.
  - apply bind_Done_inv in H as ([] & w1 & H1 & H).
    destruct (inserts_into p call) eqn:E.
    + assert (HI1 : has_n p (wrap64 (c + 1)) w1).
      { destruct call; simpl in E; try discriminate;
          apply Nat.eqb_eq in E; subst p0; simpl in H1.
        - eapply has_n_Add_self; eassumption.
        - apply bind_Done_inv in H1 as (b & w2 & H2 & H1).
          inversion H1; subst. eapply has_n_AddC_self; eassumption. }
      specialize (IH _ _ _ H HI1 (wrap64_range _)).
      unfold wrap64 in IH. rewrite Z.add_mod_idemp_l in IH by lia.
      replace (c + (1 + insertions p t)) with (c + 1 + insertions p t) by lia.
      exact IH.
    + assert (HI1 : has_n p c w1)
        by (eapply has_n_exec_other; eassumption).
      rewrite Z.add_0_l. eapply IH; eassumption.
Qed.

(** X22 — [N] counts the insertion calls.  After any sequence of calls on
    the exported operations that returns, the counter of a filter is its
    prior value plus the number of [Add] and [AddC] calls made on that
    filter, modulo [2^64]: no other call changes it, neither [UnionInPlace]
    into it nor calls on other filters. *)
Theorem N_counts_insertions (cs : list call) (w w' : world) (p : ptr)
    (f : Filter) :
  execs cs w = Done (tt, w') → heap w !! p = Some f → 0 ≤ n f < 2 ^ 64 →
  ∃ f', heap w' !! p = Some f'
        ∧ n f' = (n f + insertions p cs) mod 2 ^ 64
        ∧ N p w' = Done (n f', w').
Proof.
  intros H Hp Hn.
  destruct (insertions_count p cs (n f) w w' H) as (f' & Hf' & Hn').
  { exists f. split; [exact Hp|reflexivity]. }
  { exact Hn. }
  exists f'. split; [exact Hf'|]. split; [exact Hn'|].
  destruct w' as [h' l']. apply (run_n_Load h' l' p f' Hf').
Qed.

Lemma N_counts_insertions_witness :
  ∃ f', heap after_calls !! 0%nat = Some f'
        ∧ n f' = (1 + insertions 0%nat some_calls) mod 2 ^ 64
        ∧ N 0%nat after_calls = Done (n f', after_calls).
Proof.
  apply (N_counts_insertions some_calls two after_calls 0%nat
           (mkFilter [16] [1] 64 1)).
  - vm_compute. reflexivity.
  - reflexivity.
  - simpl. lia.
Defined.

(** ** Lock discipline *)

Definition same_lock (a b : lockEvent) : bool :=
  match a, b with
  | EvRLock p, EvRLock q => Nat.eqb p q
  | EvLock p, EvLock q => Nat.eqb p q
  | _, _ => false
  end.

(** The locks held, most recent first, after the events [evs], from the
    locks [held]; [None] when an unlock does not release the most recent
    lock. *)
Fixpoint held_after (evs held : list lockEvent) : option (list lockEvent) :=
  match evs with
  | [] => Some held
  | EvRLock p :: t => held_after t (EvRLock p :: held)
  | EvLock p :: t => held_after t (EvLock p :: held)
  | EvRUnlock p :: t =>
      match held with
      | top :: rest =>
          if same_lock top (EvRLock p) then held_after t rest else None
      | [] => None
      end
  | EvUnlock p :: t =>
      match held with
      | top :: rest =>
          if same_lock top (EvLock p) then held_after t rest else None
      | [] => None
      end
  end.

Lemma held_after_app a : ∀ b s s',
  held_after a s = Some s' → held_after (a ++ b) s = held_after b s'.
Proof.
  induction a as [|e t IH]; intros b s s' H; simpl in *.
  - inversion H. reflexivity.
  - destruct e as [p|p|p|p].
    + eapply IH. exact H.
    + destruct s as [|top rest]; [discriminate|].
      destruct (same_lock top (EvRLock p)); [|discriminate].
      eapply IH. exact H.
    + eapply IH. exact H.
    + destruct s as [|top rest]; [discriminate|].
      destruct (same_lock top (EvLock p)); [|discriminate].
      eapply IH. exact H.
Qed.

Lemma emits_exec c :
  ∃ evs, emits (exec c) evs ∧ held_after evs [] = Some [].
Proof.
  destruct c as [p v|p v|p v|p q|p|p q|p q]; simpl.
  - exists [EvRLock p; EvRUnlock p]. split; [apply emits_Add|].
    simpl. rewrite Nat.eqb_refl. reflexivity.
  - exists [EvRLock p; EvRUnlock p]. split.
    + apply emits_bind_silent_r; [apply emits_AddC|intros; apply emits_ret].
    + simpl. rewrite Nat.eqb_refl. reflexivity.
  - exists [EvRLock p; EvRUnlock p]. split.
    + apply emits_bind_silent_r; [apply emits_Contains|intros; apply emits_ret].
    + simpl. rewrite Nat.eqb_refl. reflexivity.
  - exists [EvRLock p; EvRLock q; EvRUnlock q; EvRUnlock p]. split.
    + apply emits_bind_silent_r;
        [apply emits_IsCompatible|intros; apply emits_ret].
    + simpl. rewrite !Nat.eqb_refl. reflexivity.
  - exists [EvLock p; EvUnlock p]. split.
    + apply emits_bind_silent_r; [apply emits_Copy|intros; apply emits_ret].
    + simpl. rewrite Nat.eqb_refl. reflexivity.
  - exists (union_events p q). split.
    + apply emits_bind_silent_r;
        [apply emits_UnionInPlace|intros; apply emits_ret].
    + simpl. rewrite !Nat.eqb_refl. reflexivity.
  - exists (union_events p q). split.
    + apply emits_bind_silent_r; [apply emits_Union|intros; apply emits_ret].
    + simpl. rewrite !Nat.eqb_refl. reflexivity.
Qed.

(** X23 — Every lock is released.  Whenever a sequence of calls on the
    exported operations returns, the lock calls it made are properly
    nested: each unlock releases the most recently taken lock, on the same
    filter and in the same mode, and no lock is held at the end. *)
Theorem locks_released (cs : list call) (w w' : world) :
  execs cs w = Done (tt, w') →
  ∃ evs, log w' = log w ++ evs ∧ held_after evs [] = Some [].
Proof.
  revert w. induction cs as [|c t IH]; intros w H; simpl in H.
  - inversion H; subst. exists []. split; [symmetry; apply app_nil_r|].
    reflexivity.
  - apply bind_Done_inv in H as ([] & w1 & H1 & H).
    destruct (emits_exec c) as (e1 & He1 & Hb1).
    destruct (IH w1 H) as (e2 & He2 & Hb2).
    exists (e1 ++ e2). split.
    + rewrite He2, (He1 _ _ _ H1). symmetry. apply app_assoc.
    + rewrite (held_after_app e1 e2 [] [] Hb1). exact Hb2.
Qed.

Lemma locks_released_witness :
  ∃ evs, log after_calls = log two ++ evs ∧ held_after evs [] = Some [].
Proof.
  apply (locks_released some_calls two after_calls).
  vm_compute. reflexivity.
Defined.
